(** * TaskSync remote session bridge ([remoteUiServer.ts])

    A shallow embedding of the [RemoteUiServer] class: the port allocator,
    the PIN generator, the session registry kept in VS Code's [globalState],
    the Socket.IO connection handlers and the relay, followed by the
    properties of the bridge that the specification states.

    Conventions.
    - JavaScript numbers that hold ports and timestamps are integers here
      ([Z]); strings are [string].
    - The JavaScript [Set] of authenticated socket ids is a list in insertion
      order (the order in which [broadcast] iterates).
    - A method that can throw returns a [Completion]; a handler returns the
      new world together with the effects it performed, in order.
    - The arithmetic of the PIN generator is binary64 arithmetic, each
      operation rounded to nearest, ties to even.
    - What the class reads from its environment ([Math.random], [Date.now],
      whether a port can be bound, the workspace folders) is passed in
      explicitly. *)

From Stdlib Require Import ZArith String Ascii List Lia DecimalString.
From stdpp Require Import base decidable list strings.

Open Scope Z_scope.
Open Scope string_scope.

(** ** JavaScript completions *)

Inductive Completion (A : Type) : Type :=
| Normal (a : A)
| Throw (err : string).
Arguments Normal {A} a.
Arguments Throw {A} err.

(** Calling a method on a field typed [T | null]: a [TypeError] when the
    receiver is [null]. *)
Definition invoke {A B : Type} (receiver : option A) (method : A -> B) : Completion B :=
  match receiver with
  | Some a => Normal (method a)
  | None => Throw "TypeError: Cannot read properties of null"
  end.

Definition bindC {A B : Type} (c : Completion A) (k : A -> Completion B) : Completion B :=
  match c with
  | Normal a => k a
  | Throw e => Throw e
  end.

(** ** JSON payloads *)

#[local] Unset Elimination Schemes.
Inductive Json : Type :=
| JNull
| JBool (b : bool)
| JNum (n : Z)
| JStr (s : string)
| JArr (items : list Json)
| JObj (members : list (string * Json)).
#[local] Set Elimination Schemes.

Fixpoint member (key : string) (members : list (string * Json)) : option Json :=
  match members with
  | [] => None
  | (k, v) :: rest => if String.eqb k key then Some v else member key rest
  end.

Definition property (key : string) (j : Json) : option Json :=
  match j with
  | JObj members => member key members
  | _ => None
  end.

(** ** Session registry records *)

Record SessionInfo : Type := {
  id : string;
  workspaceName : string;
  port : Z;
  startTime : Z;
  pin : string
}.

(** [res.json] serialises a record with its own properties, in the order the
    object literal of [_registerSession] lists them. *)
Definition toJSON (s : SessionInfo) : Json :=
  JObj [ ("id", JStr (id s));
         ("workspaceName", JStr (workspaceName s));
         ("port", JNum (port s));
         ("startTime", JNum (startTime s));
         ("pin", JStr (pin s)) ].

(** The entry ['tasksync.remoteSessions'] of [context.globalState]; [None]
    while the key has never been written. *)
Definition GlobalState : Type := option (list SessionInfo).

(** [globalState.get<SessionInfo[]>('tasksync.remoteSessions', [])] *)
Definition globalState_get (gs : GlobalState) : list SessionInfo :=
  match gs with
  | Some sessions => sessions
  | None => []
  end.

(** [globalState.update('tasksync.remoteSessions', v)] *)
Definition globalState_update (v : list SessionInfo) (gs : GlobalState) : GlobalState :=
  Some v.

Definition _getAllSessions (gs : GlobalState) : list SessionInfo :=
  globalState_get gs.

(** No two records of the list carry the same port. *)
Definition unique_ports (sessions : list SessionInfo) : Prop :=
  NoDup (port <$> sessions).

(** ** Port allocator *)

Definition maxAttempts : nat := 100.

(** The [for] loop of [_findAvailablePort], [attempts] iterations left.
    [_checkPort p = true] when the probe server reaches ['listening'] on [p]
    (the promise resolves), [false] when it emits ['error'] (it rejects). *)
Fixpoint findAvailablePort_loop (_checkPort : Z -> bool) (attempts : nat) (port : Z)
  : Completion Z :=
  match attempts with
  | O => Throw "Could not find available port after 100 attempts"
  | S attempts' =>
      if _checkPort port then Normal port
      else findAvailablePort_loop _checkPort attempts' (port + 1)
  end.

Definition _findAvailablePort (_checkPort : Z -> bool) (startPort : Z) : Completion Z :=
  findAvailablePort_loop _checkPort maxAttempts startPort.

(** ** PIN generator *)

(** [Math.random()] returns a double in [0, 1): a draw is the dyadic
    rational [k / 2^53] with [0 <= k < 2^53], which is a double. *)
Definition random_resolution : Z := 2 ^ 53.

Definition is_random_draw (k : Z) : Prop := 0 <= k < random_resolution.

(** [Number.prototype.toString()] on an integer *)
Definition toString (n : Z) : string := NilZero.string_of_int (Z.to_int n).

(** The multiple of [ulp] nearest to [N], the even multiple on a tie. *)
Definition round_to_even (N ulp : Z) : Z :=
  let q := N / ulp in
  let r := N mod ulp in
  let half := ulp / 2 in
  let q' :=
    if Z.ltb r half then q
    else if Z.ltb half r then q + 1
    else if Z.even q then q else q + 1 in
  q' * ulp.

(** Rounding to binary64 (round to nearest, ties to even) of the real number
    [N / 2^53], [N >= 0], given like its result in units of [2^-53]: a
    number with at most 53 significant bits is a double; a longer one is
    rounded to a multiple of the unit in the last place of its binade.  The
    numbers of [_generatePin] are below [2^14], far from overflow, and at
    least [2^-53] when not zero, far from the subnormal range. *)
Definition binary64 (N : Z) : Z :=
  let s := Z.log2 N - 52 in
  if Z.leb s 0 then N else round_to_even N (2 ^ s).

(** [Math.floor(1000 + Math.random() * 9000)] for the draw [k / 2^53]: the
    product is rounded to a double, then the sum is, then [Math.floor] is
    exact. *)
Definition pin_number (k : Z) : Z :=
  let product := binary64 (k * 9000) in
  let sum := binary64 (1000 * random_resolution + product) in
  sum / random_resolution.

Definition _generatePin (k : Z) : string := toString (pin_number k).

(** The units in the last place of the binades from [2^53] to [2^67], in
    units of [2^-53]. *)
Definition is_ulp (P : Z) : Prop :=
  P = 2 \/ P = 4 \/ P = 8 \/ P = 16 \/ P = 32 \/ P = 64 \/ P = 128 \/ P = 256 \/
  P = 512 \/ P = 1024 \/ P = 2048 \/ P = 4096 \/ P = 8192 \/ P = 16384.

Definition is_digit (c : ascii) : bool :=
  let n := nat_of_ascii c in ((48 <=? n)%nat && (n <=? 57)%nat)%bool.

Fixpoint all_digits (s : string) : bool :=
  match s with
  | EmptyString => true
  | String c rest => (is_digit c && all_digits rest)%bool
  end.

Definition leading_zero (s : string) : bool :=
  match s with
  | String c _ => Ascii.eqb c "0"%char
  | EmptyString => false
  end.

(** The text of [n] has exactly four characters, all decimal digits, the
    first of them not ["0"]. *)
Definition four_digits_no_leading_zero (n : Z) : bool :=
  let s := toString n in
  (Nat.eqb (String.length s) 4 && all_digits s && negb (leading_zero s))%bool.

(** ** Wire protocol *)

Definition SocketId : Type := string.

(** [RemoteMessage]: a [type] tag plus arbitrary further properties. *)
Record RemoteMessage : Type := {
  type : string;
  properties : list (string * Json)
}.

(** The value the state callback returns. *)
Record PendingRequest : Type := {
  request_id : string;
  prompt : string;
  isApprovalQuestion : bool;
  choices : option (list Json)
}.

Record Settings : Type := {
  soundEnabled : bool;
  interactiveApprovalEnabled : bool;
  reusablePrompts : list Json
}.

Record State : Type := {
  queue : list Json;
  queueEnabled : bool;
  currentSession : list Json;
  persistedHistory : list Json;
  pendingRequest : option PendingRequest;
  settings : Settings
}.

(** Events the server emits to a socket. *)
Inductive ServerEvent : Type :=
| authenticated (success : bool) (error : option string)
| initialState (state : State)
| message (m : RemoteMessage)
| error (msg : string).

(** Events a client socket raises on the server. *)
Inductive ClientEvent : Type :=
| on_authenticate_event (data_pin : string)
| on_message_event (m : RemoteMessage)
| on_disconnect_event.

(** What a handler does, in order: an event reaching a socket, or a call
    into one of the two callbacks of the state owner. *)
Inductive Effect : Type :=
| Emit (to : SocketId) (ev : ServerEvent)
| CallOnMessage (m : RemoteMessage)
| CallGetState.

(** What the message callback may do synchronously with its two handles on
    the server: call [respond], or call the public [broadcast]. *)
Inductive CallbackAction : Type :=
| Respond (msg : RemoteMessage)
| Broadcast (msg : RemoteMessage).

(** The Socket.IO server: the sockets currently connected to it. *)
Record SocketIOServer : Type := {
  sockets : list SocketId
}.

(** The [http.Server] returned by [app.listen]. *)
Record HttpServer : Type := {
  address_port : Z;
  listening : bool
}.


Definition is_message_to (sid : SocketId) (e : Effect) : bool :=
  match e with
  | Emit to (message _) => String.eqb to sid
  | _ => false
  end.

Definition is_CallOnMessage (e : Effect) : bool :=
  match e with
  | CallOnMessage _ => true
  | _ => false
  end.

(** The events that reach socket [sid], in order. *)
Fixpoint received (sid : SocketId) (effects : list Effect) : list ServerEvent :=
  match effects with
  | [] => []
  | Emit to ev :: rest =>
      if String.eqb to sid then ev :: received sid rest else received sid rest
  | _ :: rest => received sid rest
  end.

(** ** The JavaScript [Set<string>] of authenticated sockets *)

Definition Set_has (x : SocketId) (s : list SocketId) : bool := bool_decide (x ∈ s).

Definition Set_add (x : SocketId) (s : list SocketId) : list SocketId :=
  if Set_has x s then s else s ++ [x].

Definition Set_delete (x : SocketId) (s : list SocketId) : list SocketId :=
  filter (fun y => y ≠ x) s.

(** ** The server object *)

(** The fields of [RemoteUiServer] that carry state.  [Owner] is the state
    of the application behind the two callbacks: the message callback may
    change it and act on the server, the state callback reads it.

    [replaced_io] is not a field of the class.  It holds the Socket.IO
    servers that [start] created earlier and that [_io] no longer refers to,
    the latest first.  Nothing closes them: their HTTP servers keep
    listening, their sockets stay connected, and the handlers of those
    sockets, which close over [this], keep running. *)
Record RemoteUiServer (Owner : Type) : Type := {
  _server : option HttpServer;
  _io : option SocketIOServer;
  _port : Z;
  _pin : string;
  _sessionId : string;
  _authenticatedSockets : list SocketId;
  _onMessageCallback : option (RemoteMessage -> Owner -> Owner * list CallbackAction);
  _getStateCallback : option (Owner -> State);
  replaced_io : list SocketIOServer
}.
Arguments _server {Owner} _.
Arguments _io {Owner} _.
Arguments _port {Owner} _.
Arguments _pin {Owner} _.
Arguments _sessionId {Owner} _.
Arguments _authenticatedSockets {Owner} _.
Arguments _onMessageCallback {Owner} _.
Arguments _getStateCallback {Owner} _.
Arguments replaced_io {Owner} _.

(** The server together with what it shares with the rest of the extension
    host: the state owner and the persistent [globalState]. *)
Record World (Owner : Type) : Type := {
  this : RemoteUiServer Owner;
  owner : Owner;
  globalState : GlobalState
}.
Arguments this {Owner} _.
Arguments owner {Owner} _.
Arguments globalState {Owner} _.

Definition set_server {Owner} (v : option HttpServer) (b : RemoteUiServer Owner) :=
  {| _server := v; _io := _io b; _port := _port b; _pin := _pin b;
     _sessionId := _sessionId b; _authenticatedSockets := _authenticatedSockets b;
     _onMessageCallback := _onMessageCallback b; _getStateCallback := _getStateCallback b;
     replaced_io := replaced_io b |}.

Definition set_io {Owner} (v : option SocketIOServer) (b : RemoteUiServer Owner) :=
  {| _server := _server b; _io := v; _port := _port b; _pin := _pin b;
     _sessionId := _sessionId b; _authenticatedSockets := _authenticatedSockets b;
     _onMessageCallback := _onMessageCallback b; _getStateCallback := _getStateCallback b;
     replaced_io := replaced_io b |}.

Definition set_port {Owner} (v : Z) (b : RemoteUiServer Owner) :=
  {| _server := _server b; _io := _io b; _port := v; _pin := _pin b;
     _sessionId := _sessionId b; _authenticatedSockets := _authenticatedSockets b;
     _onMessageCallback := _onMessageCallback b; _getStateCallback := _getStateCallback b;
     replaced_io := replaced_io b |}.

Definition set_authenticatedSockets {Owner} (v : list SocketId) (b : RemoteUiServer Owner) :=
  {| _server := _server b; _io := _io b; _port := _port b; _pin := _pin b;
     _sessionId := _sessionId b; _authenticatedSockets := v;
     _onMessageCallback := _onMessageCallback b; _getStateCallback := _getStateCallback b;
     replaced_io := replaced_io b |}.

Definition set_replaced_io {Owner} (v : list SocketIOServer) (b : RemoteUiServer Owner) :=
  {| _server := _server b; _io := _io b; _port := _port b; _pin := _pin b;
     _sessionId := _sessionId b; _authenticatedSockets := _authenticatedSockets b;
     _onMessageCallback := _onMessageCallback b; _getStateCallback := _getStateCallback b;
     replaced_io := v |}.

Definition set_this {Owner} (b : RemoteUiServer Owner) (w : World Owner) : World Owner :=
  {| this := b; owner := owner w; globalState := globalState w |}.

(** [constructor]: [random_pin] is the draw of [_generatePin],
    [random_suffix] the text [Math.random().toString(36).substring(2, 9)]. *)
Definition new_RemoteUiServer {Owner} (random_pin : Z) (now : Z) (random_suffix : string)
  : RemoteUiServer Owner :=
  {| _server := None; _io := None; _port := 0;
     _pin := _generatePin random_pin;
     _sessionId := "session_" ++ toString now ++ "_" ++ random_suffix;
     _authenticatedSockets := [];
     _onMessageCallback := None; _getStateCallback := None;
     replaced_io := [] |}.

(** [onMessage(callback)] and [onGetState(callback)] *)
Definition onMessage {Owner}
  (callback : RemoteMessage -> Owner -> Owner * list CallbackAction)
  (b : RemoteUiServer Owner) : RemoteUiServer Owner :=
  {| _server := _server b; _io := _io b; _port := _port b; _pin := _pin b;
     _sessionId := _sessionId b; _authenticatedSockets := _authenticatedSockets b;
     _onMessageCallback := Some callback; _getStateCallback := _getStateCallback b;
     replaced_io := replaced_io b |}.

Definition onGetState {Owner} (callback : Owner -> State)
  (b : RemoteUiServer Owner) : RemoteUiServer Owner :=
  {| _server := _server b; _io := _io b; _port := _port b; _pin := _pin b;
     _sessionId := _sessionId b; _authenticatedSockets := _authenticatedSockets b;
     _onMessageCallback := _onMessageCallback b; _getStateCallback := Some callback;
     replaced_io := replaced_io b |}.

(** ** Session registry *)

(** [workspaceFolders?.[0]?.name || 'Untitled Workspace'], the folders
    given by their names. *)
Definition workspaceName_of (workspaceFolders : option (list string)) : string :=
  match workspaceFolders with
  | Some (name :: _) => if String.eqb name "" then "Untitled Workspace" else name
  | _ => "Untitled Workspace"
  end.

Definition _registerSession {Owner} (b : RemoteUiServer Owner)
  (workspaceFolders : option (list string)) (now : Z) (gs : GlobalState) : GlobalState :=
  let session :=
    {| id := _sessionId b;
       workspaceName := workspaceName_of workspaceFolders;
       port := _port b;
       startTime := now;
       pin := _pin b |} in
  let sessions := globalState_get gs in
  let filtered := filter (fun s => port s ≠ _port b) sessions in
  globalState_update (filtered ++ [session]) gs.

Definition _unregisterSession {Owner} (b : RemoteUiServer Owner) (gs : GlobalState)
  : GlobalState :=
  let sessions := globalState_get gs in
  let filtered := filter (fun s => id s ≠ _sessionId b) sessions in
  globalState_update filtered gs.

(** A call on the registry by some server of the host process. *)
Inductive RegistryCall (Owner : Type) : Type :=
| register (b : RemoteUiServer Owner) (workspaceFolders : option (list string)) (now : Z)
| unregister (b : RemoteUiServer Owner).
Arguments register {Owner} b workspaceFolders now.
Arguments unregister {Owner} b.

Definition registry_call {Owner} (c : RegistryCall Owner) (gs : GlobalState) : GlobalState :=
  match c with
  | register b folders now => _registerSession b folders now gs
  | unregister b => _unregisterSession b gs
  end.

Definition registry_calls {Owner} (cs : list (RegistryCall Owner)) (gs : GlobalState)
  : GlobalState :=
  fold_left (fun g c => registry_call c g) cs gs.

(** ** HTTP: the session listing *)

Record Request : Type := {
  query : list (string * string)
}.

Inductive Response : Type :=
| res_json (body : Json).

(** [GET /api/sessions] *)
Definition api_sessions (_req : Request) (gs : GlobalState) : Response :=
  let sessions := _getAllSessions gs in
  res_json (JArr (toJSON <$> sessions)).

(** ** Socket.IO handlers and the relay *)

(** [io.to(room).emit(ev)]: every socket joins the room named by its own
    id, so the event reaches that socket while it is connected to [io]. *)
Definition io_to_emit (io : SocketIOServer) (room : SocketId) (ev : ServerEvent)
  : list Effect :=
  if bool_decide (room ∈ sockets io) then [Emit room ev] else [].

(** [broadcast(message)] *)
Definition broadcast {Owner} (b : RemoteUiServer Owner) (m : RemoteMessage) : list Effect :=
  match _io b with
  | None => []
  | Some io =>
      flat_map (fun socketId => io_to_emit io socketId (message m))
               (_authenticatedSockets b)
  end.

(** The sockets connected to the server's current Socket.IO instance, the
    one [_io] refers to. *)
Definition connections {Owner} (b : RemoteUiServer Owner) : list SocketId :=
  match _io b with
  | None => []
  | Some io => sockets io
  end.

(** ['connection']: Socket.IO adds the socket; the handler only logs and
    installs the three per-socket handlers below. *)
Definition on_connection {Owner} (socket_id : SocketId) (w : World Owner)
  : World Owner * list Effect :=
  match _io (this w) with
  | None => (w, [])
  | Some io =>
      (set_this (set_io (Some {| sockets := sockets io ++ [socket_id] |}) (this w)) w, [])
  end.

(** A client connects to the [n]-th replaced Socket.IO server, which still
    listens; its ['connection'] handler is the same. *)
Definition on_replaced_connection {Owner} (n : nat) (socket_id : SocketId)
  (w : World Owner) : World Owner * list Effect :=
  let accept io := {| sockets := sockets io ++ [socket_id] |} in
  (set_this (set_replaced_io (alter accept n (replaced_io (this w))) (this w)) w, []).

(** All the sockets that are connected to the server object: those of its
    Socket.IO instance and those of the instances it replaced. *)
Definition open_connections {Owner} (b : RemoteUiServer Owner) : list SocketId :=
  (connections b ++ flat_map sockets (replaced_io b))%list.

(** ['authenticate'] *)
Definition on_authenticate {Owner} (socket_id : SocketId) (data_pin : string)
  (w : World Owner) : World Owner * list Effect :=
  let b := this w in
  if String.eqb data_pin (_pin b) then
    let b' := set_authenticatedSockets (Set_add socket_id (_authenticatedSockets b)) b in
    let ack := Emit socket_id (authenticated true None) in
    match _getStateCallback b' with
    | Some getState =>
        let state := getState (owner w) in
        (set_this b' w, [ack; CallGetState; Emit socket_id (initialState state)])
    | None => (set_this b' w, [ack])
    end
  else
    (w, [Emit socket_id (authenticated false (Some "Invalid PIN"))]).

(** What one synchronous action of the message callback does: [respond]
    emits on the socket the message came from. *)
Definition perform {Owner} (b : RemoteUiServer Owner) (socket_id : SocketId)
  (a : CallbackAction) : list Effect :=
  match a with
  | Respond response => [Emit socket_id (message response)]
  | Broadcast m => broadcast b m
  end.

(** ['message'] *)
Definition on_message {Owner} (socket_id : SocketId) (m : RemoteMessage)
  (w : World Owner) : World Owner * list Effect :=
  let b := this w in
  if negb (Set_has socket_id (_authenticatedSockets b)) then
    (w, [Emit socket_id (error "Not authenticated")])
  else
    match _onMessageCallback b with
    | Some callback =>
        let (owner', actions) := callback m (owner w) in
        ({| this := b; owner := owner'; globalState := globalState w |},
         CallOnMessage m :: flat_map (perform b socket_id) actions)
    | None => (w, [])
    end.

(** A Socket.IO server drops a socket. *)
Definition drop_socket (socket_id : SocketId) (io : SocketIOServer) : SocketIOServer :=
  {| sockets := filter (fun s => s ≠ socket_id) (sockets io) |}.

(** ['disconnect']: the Socket.IO server the socket was connected to, the
    current one or a replaced one, drops it; the handler forgets it. *)
Definition on_disconnect {Owner} (socket_id : SocketId) (w : World Owner)
  : World Owner * list Effect :=
  let b := this w in
  let io' :=
    match _io b with
    | None => None
    | Some io => Some (drop_socket socket_id io)
    end in
  (set_this (set_authenticatedSockets (Set_delete socket_id (_authenticatedSockets b))
               (set_replaced_io (drop_socket socket_id <$> replaced_io b)
                  (set_io io' b))) w, []).

(** ** Starting and stopping *)

Record Environment : Type := {
  _checkPort : Z -> bool;
  listen_succeeds : Z -> bool;
  workspaceFolders : option (list string);
  Date_now : Z
}.

(** [_setupSocketIO]: a fresh Socket.IO server on [_server], with no socket
    connected yet.  It takes the place of the one [_io] held, which is not
    closed and joins [replaced_io]: from then on [connections] and
    [broadcast] see the new instance only. *)
Definition _setupSocketIO {Owner} (b : RemoteUiServer Owner) : RemoteUiServer Owner :=
  match _server b with
  | None => b
  | Some _ =>
      let replaced :=
        match _io b with
        | Some io => io :: replaced_io b
        | None => replaced_io b
        end in
      set_replaced_io replaced (set_io (Some {| sockets := [] |}) b)
  end.

(** [start(preferredPort)], run to the point where its promise settles.
    [preferredPort || 3000] takes 3000 for [undefined] and for [0]. *)
Definition start {Owner} (preferredPort : option Z) (env : Environment) (w : World Owner)
  : World Owner * Completion Z :=
  let startPort :=
    match preferredPort with
    | Some p => if Z.eqb p 0 then 3000 else p
    | None => 3000
    end in
  match _findAvailablePort (_checkPort env) startPort with
  | Throw e => (w, Throw e)
  | Normal p =>
      let b1 := set_port p (this w) in
      if listen_succeeds env p then
        let b2 := set_server (Some {| address_port := p; listening := true |}) b1 in
        let b3 := _setupSocketIO b2 in
        let gs := _registerSession b3 (workspaceFolders env) (Date_now env) (globalState w) in
        ({| this := b3; owner := owner w; globalState := gs |}, Normal p)
      else
        let b2 := set_server (Some {| address_port := p; listening := false |}) b1 in
        (set_this b2 w, Throw "listen failed")
  end.

Definition close_io (io : SocketIOServer) : unit := tt.
Definition close_server (srv : HttpServer) : unit := tt.

(** [stop()] *)
Definition stop {Owner} (w : World Owner) : Completion (World Owner) :=
  let gs := _unregisterSession (this w) (globalState w) in
  let b := this w in
  bindC (match _io b with
         | Some _ => bindC (invoke (_io b) close_io) (fun _ => Normal (set_io None b))
         | None => Normal b
         end) (fun b1 =>
  bindC (match _server b1 with
         | Some _ => bindC (invoke (_server b1) close_server)
                       (fun _ => Normal (set_server None b1))
         | None => Normal b1
         end) (fun b2 =>
  Normal {| this := set_authenticatedSockets [] b2; owner := owner w; globalState := gs |})).

(** The world a call of [stop] leaves behind. *)
Definition stopped {Owner} (w : World Owner) : World Owner :=
  {| this :=
       {| _server := None; _io := None;
          _port := _port (this w); _pin := _pin (this w);
          _sessionId := _sessionId (this w);
          _authenticatedSockets := [];
          _onMessageCallback := _onMessageCallback (this w);
          _getStateCallback := _getStateCallback (this w);
          replaced_io := replaced_io (this w) |};
     owner := owner w;
     globalState := _unregisterSession (this w) (globalState w) |}.

(** ** Runs of the server *)

(** What can happen to a server, one event-loop turn at a time. *)
Inductive Input (Owner : Type) : Type :=
| io_connection (socket_id : SocketId)
| socket_on (socket_id : SocketId) (ev : ClientEvent)
| call_broadcast (m : RemoteMessage)
| call_onMessage (callback : RemoteMessage -> Owner -> Owner * list CallbackAction)
| call_onGetState (callback : Owner -> State)
| call_start (preferredPort : option Z) (env : Environment)
| call_stop
| owner_acts (f : Owner -> Owner)
| replaced_connection (n : nat) (socket_id : SocketId).
Arguments io_connection {Owner} socket_id.
Arguments socket_on {Owner} socket_id ev.
Arguments call_broadcast {Owner} m.
Arguments call_onMessage {Owner} callback.
Arguments call_onGetState {Owner} callback.
Arguments call_start {Owner} preferredPort env.
Arguments call_stop {Owner}.
Arguments owner_acts {Owner} f.
Arguments replaced_connection {Owner} n socket_id.

Definition step {Owner} (i : Input Owner) (w : World Owner) : World Owner * list Effect :=
  match i with
  | io_connection sid => on_connection sid w
  | socket_on sid (on_authenticate_event data_pin) => on_authenticate sid data_pin w
  | socket_on sid (on_message_event m) => on_message sid m w
  | socket_on sid on_disconnect_event => on_disconnect sid w
  | call_broadcast m => (w, broadcast (this w) m)
  | call_onMessage callback => (set_this (onMessage callback (this w)) w, [])
  | call_onGetState callback => (set_this (onGetState callback (this w)) w, [])
  | call_start preferredPort env => (fst (start preferredPort env w), [])
  | call_stop =>
      match stop w with
      | Normal w' => (w', [])
      | Throw _ => (w, [])
      end
  | owner_acts f => ({| this := this w; owner := f (owner w); globalState := globalState w |}, [])
  | replaced_connection n sid => on_replaced_connection n sid w
  end.

Fixpoint run {Owner} (inputs : list (Input Owner)) (w : World Owner)
  : World Owner * list Effect :=
  match inputs with
  | [] => (w, [])
  | i :: rest =>
      let (w1, effects1) := step i w in
      let (w2, effects2) := run rest w1 in
      (w2, (effects1 ++ effects2)%list)
  end.

(** The input is an ['authenticate'] of socket [sid] that carries [secret]. *)
Definition authenticates {Owner} (secret : string) (sid : SocketId) (i : Input Owner)
  : bool :=
  match i with
  | socket_on s (on_authenticate_event data_pin) =>
      (String.eqb s sid && String.eqb data_pin secret)%bool
  | _ => false
  end.

(** ** Sample values *)

Definition sample_state (queued : nat) : State :=
  {| queue := repeat (JStr "task") queued;
     queueEnabled := true;
     currentSession := [];
     persistedHistory := [];
     pendingRequest := None;
     settings := {| soundEnabled := true;
                    interactiveApprovalEnabled := false;
                    reusablePrompts := [] |} |}.

(** A state owner that counts the messages it was handed and asks for each
    to be broadcast. *)
Definition sample_onMessage (m : RemoteMessage) (handled : nat)
  : nat * list CallbackAction :=
  (S handled, [Broadcast m]).

Definition sample_message : RemoteMessage :=
  {| type := "addToQueue"; properties := [("prompt", JStr "run the tests")] |}.

(** A freshly constructed server; its draw gives the PIN ["5500"]. *)
Definition sample_server : RemoteUiServer nat :=
  new_RemoteUiServer (2 ^ 52) 1700000000000 "k3x9q2a".

Definition sample_environment : Environment :=
  {| _checkPort := fun p => negb (Z.eqb p 3000);
     listen_succeeds := fun _ => true;
     workspaceFolders := Some ["tasksync"];
     Date_now := 1700000000500 |}.

(** No callback registered; started; two sockets connected, the first one
    authenticated. *)
Definition bare_world : World nat :=
  fst (run [ call_start (Some 3000) sample_environment;
             io_connection "socket-1";
             io_connection "socket-2";
             socket_on "socket-1" (on_authenticate_event "5500") ]
           {| this := sample_server; owner := 0%nat; globalState := None |}).

(** The environment a minute later: the server's own listener now holds
    port 3001 as well. *)
Definition busy_environment : Environment :=
  {| _checkPort := fun p => negb (Z.eqb p 3000 || Z.eqb p 3001);
     listen_succeeds := fun _ => true;
     workspaceFolders := Some ["tasksync"];
     Date_now := 1700000060000 |}.

(** The same with both callbacks registered before the start. *)
Definition wired_world : World nat :=
  fst (run [ call_onGetState sample_state;
             call_onMessage sample_onMessage;
             call_start (Some 3000) sample_environment;
             io_connection "socket-1";
             io_connection "socket-2";
             socket_on "socket-1" (on_authenticate_event "5500") ]
           {| this := sample_server; owner := 0%nat; globalState := None |}).

(** ** Connection info *)

(** An entry of [os.networkInterfaces()]. *)
Record NetworkInterfaceInfo : Type := {
  address : string;
  family : string;
  internal : bool
}.

(** [os.networkInterfaces()]: interface name to its addresses, possibly
    [undefined]. *)
Definition NetworkInterfaces : Type :=
  list (string * option (list NetworkInterfaceInfo)).

(** The inner loop of [_getLocalIPs]: internal and non-IPv4 entries are
    skipped, the address of every other entry is pushed. *)
Fixpoint push_addresses (netInterface : list NetworkInterfaceInfo) (ips : list string)
  : list string :=
  match netInterface with
  | [] => ips
  | iface :: rest =>
      if (internal iface || negb (String.eqb (family iface) "IPv4"))%bool
      then push_addresses rest ips
      else push_addresses rest (ips ++ [address iface])
  end.

(** [_getLocalIPs], the outer loop carried over the accumulator [ips]. *)
Fixpoint getLocalIPs_loop (interfaces : NetworkInterfaces) (ips : list string)
  : list string :=
  match interfaces with
  | [] => ips
  | (_, None) :: rest => getLocalIPs_loop rest ips
  | (_, Some netInterface) :: rest =>
      getLocalIPs_loop rest (push_addresses netInterface ips)
  end.

Definition _getLocalIPs (interfaces : NetworkInterfaces) : list string :=
  getLocalIPs_loop interfaces [].

Module Info.
(** The object [getConnectionInfo] returns. *)
Record t : Type := {
  urls : list string;
  pin : string;
  port : Z
}.
End Info.

(** [getConnectionInfo()] *)
Definition getConnectionInfo {Owner} (b : RemoteUiServer Owner)
  (interfaces : NetworkInterfaces) : Info.t :=
  let ips := _getLocalIPs interfaces in
  {| Info.urls :=
       ("http://localhost:" ++ toString (_port b))
         :: ((fun ip => "http://" ++ ip ++ ":" ++ toString (_port b)) <$> ips);
     Info.pin := _pin b;
     Info.port := _port b |}.

(** The test [info.port > 0] by which the commands [showRemoteUrl],
    [toggleRemoteStop] and [toggleRemote] of the extension decide that the
    server is running. *)
Definition port_says_running (info : Info.t) : bool := Z.ltb 0 (Info.port info).

(** ** HTTP: the landing page and the application page *)

(** [req.query.pin] as the query parser leaves it: absent, a string, or an
    array or object (which is truthy and never [===] a string). *)
Inductive QueryValue : Type :=
| undefined
| str (s : string)
| structured.

Inductive Page : Type :=
| LandingHtml
| AppHtml.

Inductive PageResponse : Type :=
| redirect (location : string)
| send (page : Page).

(** [GET /] *)
Definition get_root {Owner} (query_pin : QueryValue) (b : RemoteUiServer Owner)
  : PageResponse :=
  match query_pin with
  | str pin =>
      if (negb (String.eqb pin "") && String.eqb pin (_pin b))%bool
      then redirect ("/app?pin=" ++ pin)
      else send LandingHtml
  | _ => send LandingHtml
  end.

(** [GET /app]: [req.query.pin || ''] is compared with the PIN. *)
Definition get_app {Owner} (query_pin : QueryValue) (b : RemoteUiServer Owner)
  : PageResponse :=
  let pin :=
    match query_pin with
    | undefined => str ""
    | str s => str s
    | structured => structured
    end in
  match pin with
  | str s =>
      if negb (String.eqb s (_pin b)) then redirect "/?error=invalid_pin"
      else send AppHtml
  | _ => redirect "/?error=invalid_pin"
  end.

(** ** Escaping for the landing page *)

(** The table [map] of [_escapeHtml]; [None] for a character the regular
    expression does not match. *)
Definition html_entity (m : ascii) : option string :=
  if Ascii.eqb m "&" then Some "&amp;"
  else if Ascii.eqb m "<" then Some "&lt;"
  else if Ascii.eqb m ">" then Some "&gt;"
  else if Ascii.eqb m "034" then Some "&quot;"
  else if Ascii.eqb m "'" then Some "&#039;"
  else None.

(** [text.replace(re, m => map[m])] with the global regular expression
    that matches any one of the five characters of [map]. *)
Fixpoint _escapeHtml (text : string) : string :=
  match text with
  | EmptyString => EmptyString
  | String c rest =>
      match html_entity c with
      | Some entity => entity ++ _escapeHtml rest
      | None => String c (_escapeHtml rest)
      end
  end.

(** The character is one of the five that [_escapeHtml] replaces. *)
Definition is_special (c : ascii) : bool :=
  match html_entity c with
  | Some _ => true
  | None => false
  end.

Fixpoint occurs (c : ascii) (s : string) : bool :=
  match s with
  | EmptyString => false
  | String d rest => (Ascii.eqb d c || occurs c rest)%bool
  end.

Fixpoint has_special (s : string) : bool :=
  match s with
  | EmptyString => false
  | String c rest => (is_special c || has_special rest)%bool
  end.

(** ** The browser side of the application page *)

(** The state of the shim script: [socket] is [true] once [initSocket] has
    created the socket. *)
Record Shim : Type := {
  PIN : string;
  socket : bool;
  isConnected : bool;
  reconnectAttempts : nat;
  messageQueue : list RemoteMessage
}.

(** What happens in the page. *)
Inductive ShimInput : Type :=
| postMessage (m : RemoteMessage)
| initSocket
| socket_connect
| socket_authenticated (success : bool)
| socket_disconnect
| socket_connect_error.

(** The state when the script has run, before [connectSocket] reaches
    [initSocket]; [query_pin] is [URLSearchParams.get('pin')]. *)
Definition shim_loaded (query_pin : option string) : Shim :=
  {| PIN := match query_pin with
            | Some p => if String.eqb p "" then "" else p
            | None => ""
            end;
     socket := false; isConnected := false; reconnectAttempts := 0;
     messageQueue := [] |}.

(** One event of the page: the new state and what [socket.emit] sends to
    the server, in order. *)
Definition shim_step (i : ShimInput) (c : Shim) : Shim * list ClientEvent :=
  match i with
  | postMessage m =>
      if (isConnected c && socket c)%bool then (c, [on_message_event m])
      else ({| PIN := PIN c; socket := socket c; isConnected := isConnected c;
               reconnectAttempts := reconnectAttempts c;
               messageQueue := messageQueue c ++ [m] |}, [])
  | initSocket =>
      ({| PIN := PIN c; socket := true; isConnected := isConnected c;
          reconnectAttempts := reconnectAttempts c;
          messageQueue := messageQueue c |}, [])
  | socket_connect => (c, [on_authenticate_event (PIN c)])
  | socket_authenticated true =>
      ({| PIN := PIN c; socket := socket c; isConnected := true;
          reconnectAttempts := 0; messageQueue := [] |},
       on_message_event <$> messageQueue c)
  | socket_authenticated false => (c, [])
  | socket_disconnect =>
      ({| PIN := PIN c; socket := socket c; isConnected := false;
          reconnectAttempts := reconnectAttempts c;
          messageQueue := messageQueue c |}, [])
  | socket_connect_error =>
      ({| PIN := PIN c; socket := socket c; isConnected := isConnected c;
          reconnectAttempts := S (reconnectAttempts c);
          messageQueue := messageQueue c |}, [])
  end.

Fixpoint shim_run (inputs : list ShimInput) (c : Shim) : Shim * list ClientEvent :=
  match inputs with
  | [] => (c, [])
  | i :: rest =>
      let (c1, sent1) := shim_step i c in
      let (c2, sent2) := shim_run rest c1 in
      (c2, (sent1 ++ sent2)%list)
  end.

(** The events of the socket are raised only once [initSocket] has made it. *)
Definition shim_event_possible (c : Shim) (i : ShimInput) : bool :=
  match i with
  | postMessage _ | initSocket => true
  | _ => socket c
  end.

Fixpoint shim_run_possible (inputs : list ShimInput) (c : Shim) : bool :=
  match inputs with
  | [] => true
  | i :: rest =>
      (shim_event_possible c i && shim_run_possible rest (fst (shim_step i c)))%bool
  end.

(** The messages handed to [postMessage] and the messages sent, in order. *)
Definition posted (inputs : list ShimInput) : list RemoteMessage :=
  flat_map (fun i => match i with postMessage m => [m] | _ => [] end) inputs.

Definition sent_messages (sent : list ClientEvent) : list RemoteMessage :=
  flat_map (fun e => match e with on_message_event m => [m] | _ => [] end) sent.

(** While the page is connected the socket exists and nothing waits in
    the queue. *)
Definition shim_ok (c : Shim) : Prop :=
  isConnected c = true -> socket c = true /\ messageQueue c = [].

(** ** The script of the landing page *)

(** [paste.replace(re, '')] with the global regular expression that
    matches any character that is not a decimal digit. *)
Fixpoint remove_non_digits (paste : string) : string :=
  match paste with
  | EmptyString => EmptyString
  | String c rest =>
      if is_digit c then String c (remove_non_digits rest)
      else remove_non_digits rest
  end.

(** The loop [digits.split('').forEach((digit, i) => ...)] of the paste
    handler: the i-th digit becomes the value of the i-th box, as long as
    there is an i-th box. *)
Fixpoint fill_inputs (digits : string) (inputs : list string) : list string :=
  match digits, inputs with
  | String digit rest, _ :: boxes => String digit EmptyString :: fill_inputs rest boxes
  | _, _ => inputs
  end.

(** The ['paste'] handler on the values of the PIN boxes; at most the
    first four digits of the pasted text are used. *)
Definition on_paste (paste : string) (inputs : list string) : list string :=
  let digits := substring 0 4 (remove_non_digits paste) in
  fill_inputs digits inputs.

(** [Array.from(inputs).map(i => i.value).join('')] *)
Definition entered_pin (inputs : list string) : string :=
  fold_right String.append EmptyString inputs.

(** [checkPin]: the value it gives [connectBtn.disabled]. *)
Definition connectBtn_disabled (inputs : list string) : bool :=
  negb (Nat.eqb (String.length (entered_pin inputs)) 4).

(** The ['submit'] handler: where the page goes. *)
Definition submit_location (inputs : list string) : string :=
  "/app?pin=" ++ entered_pin inputs.

(** ** Reading effects *)

(** The calls of the message callback among the effects, in order. *)
Definition forwarded (effects : list Effect) : list RemoteMessage :=
  flat_map (fun e => match e with CallOnMessage m => [m] | _ => [] end) effects.

(** The input takes socket [sid] out of the authenticated set: its own
    ['disconnect'], or a [stop] of the server. *)
Definition ends_session {Owner} (sid : SocketId) (i : Input Owner) : bool :=
  match i with
  | socket_on s on_disconnect_event => String.eqb s sid
  | call_stop => true
  | _ => false
  end.

(** ** Registry and Socket.IO instance *)

(** What [start] and [stop] keep true of the registry of a server that is
    the only one to write to it. *)
Definition listed_while_serving {Owner} (w : World Owner) : Prop :=
  (_io (this w) <> None <->
   exists s, s ∈ _getAllSessions (globalState w) /\ id s = _sessionId (this w)) /\
  (forall s, s ∈ _getAllSessions (globalState w) ->
             id s = _sessionId (this w) -> pin s = _pin (this w)).

(** [wired_world] after a second [start] with no [stop] in between (the
    command [tasksync.startRemote] run twice). *)
Definition restarted_world : World nat :=
  fst (run [call_start (Some 3000) busy_environment] wired_world).

(** * Properties *)

(** ** Session registry: ports stay unique *)

Section Registry.
Context {Owner : Type}.
Implicit Types (b : RemoteUiServer Owner) (gs : GlobalState).

Lemma unique_ports_filter (P : SessionInfo -> Prop) `{!forall s, Decision (P s)}
  (sessions : list SessionInfo) :
  unique_ports sessions -> unique_ports (filter P sessions).
Proof.
  unfold unique_ports. intros Hnd.
  eapply sublist_NoDup; [exact Hnd|].
  apply fmap_sublist, sublist_filter.
Qed.

Lemma registerSession_unique b folders now gs :
  unique_ports (globalState_get gs) ->
  unique_ports (globalState_get (_registerSession b folders now gs)).
Proof.
  intros Hnd. unfold _registerSession, globalState_update, unique_ports.
  cbn [globalState_get]. rewrite fmap_app. apply NoDup_app. split; [|split].
  - apply unique_ports_filter, Hnd.
  - intros p Hin Hp. apply list_elem_of_fmap in Hin as (s & -> & Hs).
    apply list_elem_of_filter in Hs as [Hne _].
    cbn in Hp. apply list_elem_of_singleton in Hp. contradiction.
  - cbn. apply NoDup_singleton.
Qed.

Lemma unregisterSession_unique b gs :
  unique_ports (globalState_get gs) ->
  unique_ports (globalState_get (_unregisterSession b gs)).
Proof.
  intros Hnd. unfold _unregisterSession, globalState_update.
  cbn [globalState_get]. apply unique_ports_filter, Hnd.
Qed.

Lemma registry_call_unique (c : RegistryCall Owner) gs :
  unique_ports (globalState_get gs) ->
  unique_ports (globalState_get (registry_call c gs)).
Proof.
  intros Hnd. destruct c; cbn.
  - apply registerSession_unique, Hnd.
  - apply unregisterSession_unique, Hnd.
Qed.

Lemma registry_calls_unique (cs : list (RegistryCall Owner)) gs :
  unique_ports (globalState_get gs) ->
  unique_ports (globalState_get (registry_calls cs gs)).
Proof.
  revert gs. induction cs as [|c cs IH]; intros gs Hnd; cbn; [exact Hnd|].
  apply IH, registry_call_unique, Hnd.
Qed.

Lemma unique_ports_positions (sessions : list SessionInfo) :
  unique_ports sessions ->
  forall i j s1 s2,
    sessions !! i = Some s1 -> sessions !! j = Some s2 ->
    port s1 = port s2 -> i = j.
Proof.
  intros Hnd i j s1 s2 Hi Hj Hp.
  eapply NoDup_lookup; [exact Hnd| |].
  - rewrite list_lookup_fmap, Hi. reflexivity.
  - rewrite list_lookup_fmap, Hj. cbn. congruence.
Qed.

(** C3. Whatever sequence of [_registerSession] / [_unregisterSession]
    calls the servers of a host process make, starting from a registry that
    was never written, the stored list never holds two records with the
    same port: the ports of the list are pairwise distinct by position. *)
Theorem registry_never_repeats_a_port (cs : list (RegistryCall Owner)) :
  let sessions := _getAllSessions (registry_calls cs None) in
  NoDup (port <$> sessions) /\
  forall i j s1 s2,
    sessions !! i = Some s1 -> sessions !! j = Some s2 ->
    port s1 = port s2 -> i = j.
Proof.
  cbn zeta. unfold _getAllSessions.
  assert (unique_ports (globalState_get (registry_calls cs None))) as Hnd.
  { apply registry_calls_unique. cbn. apply NoDup_nil_2. }
  split; [exact Hnd|]. apply unique_ports_positions, Hnd.
Qed.

End Registry.

(** ** Port allocator *)

Section PortAllocator.
Variable checkPort : Z -> bool.

Lemma findAvailablePort_loop_spec (attempts : nat) (port : Z) :
  match findAvailablePort_loop checkPort attempts port with
  | Normal p =>
      port <= p < port + Z.of_nat attempts /\
      checkPort p = true /\
      forall q, port <= q < p -> checkPort q = false
  | Throw e =>
      e = "Could not find available port after 100 attempts" /\
      forall q, port <= q < port + Z.of_nat attempts -> checkPort q = false
  end.
Proof.
  revert port. induction attempts as [|n IH]; intros port.
  - cbn. split; [reflexivity|]. intros q Hq. lia.
  - cbn [findAvailablePort_loop]. destruct (checkPort port) eqn:Hport.
    + split; [lia|]. split; [exact Hport|]. intros q Hq. lia.
    + specialize (IH (port + 1)).
      destruct (findAvailablePort_loop checkPort n (port + 1)) as [p|e].
      * destruct IH as (Hrange & Hp & Hbelow).
        split; [lia|]. split; [exact Hp|].
        intros q Hq. destruct (Z.eq_dec q port) as [->|Hne]; [exact Hport|].
        apply Hbelow. lia.
      * destruct IH as (He & Hall). split; [exact He|].
        intros q Hq. destruct (Z.eq_dec q port) as [->|Hne]; [exact Hport|].
        apply Hall. lia.
Qed.

(** C9. [_findAvailablePort] probes [startPort], [startPort + 1], ... one
    port at a time.  It returns the first port at or above [startPort] whose
    probe succeeds, provided that port is among the first 100; it throws the
    "could not find available port" error exactly when the 100 probes of
    [startPort .. startPort + 99] all fail. *)
Theorem findAvailablePort_first_free (startPort : Z) :
  match _findAvailablePort checkPort startPort with
  | Normal p =>
      startPort <= p < startPort + 100 /\
      checkPort p = true /\
      forall q, startPort <= q < p -> checkPort q = false
  | Throw e =>
      e = "Could not find available port after 100 attempts" /\
      forall q, startPort <= q < startPort + 100 -> checkPort q = false
  end.
Proof.
  unfold _findAvailablePort.
  pose proof (findAvailablePort_loop_spec maxAttempts startPort) as H.
  unfold maxAttempts in *.
  destruct (findAvailablePort_loop checkPort 100 startPort); exact H.
Qed.

End PortAllocator.

(** The bound is on attempts, not on ports: a free port 100 above the
    preferred one is not found. *)
Example findAvailablePort_gives_up :
  _findAvailablePort (fun p => Z.eqb p 3100) 3000
  = Throw "Could not find available port after 100 attempts"
  /\ _findAvailablePort (fun p => Z.eqb p 3099) 3000 = Normal 3099.
Proof. split; vm_compute; reflexivity. Qed.

(** ** PIN generator *)

Lemma binary64_cases (N : Z) :
  0 <= N < 2 ^ 67 ->
  (N < 2 ^ 53 /\ binary64 N = N) \/
  (exists P, is_ulp P /\ 4503599627370496 * P <= N < 9007199254740992 * P /\
             binary64 N = round_to_even N P).
Proof.
  intros [Hlo Hhi]. unfold binary64. cbv zeta.
  destruct (Z.leb_spec (Z.log2 N - 52) 0) as [Hs|Hs].
  - left. split; [|reflexivity].
    destruct (Z.eq_dec N 0) as [->|Hne]; [reflexivity|].
    apply Z.log2_lt_pow2; lia.
  - right. assert (0 < N) as Hpos.
    { destruct (Z.eq_dec N 0) as [->|Hne]; [cbn in Hs; lia|lia]. }
    pose proof (Z.log2_spec N Hpos) as [Hl Hu].
    assert (Z.log2 N < 67) as Hlt by (apply Z.log2_lt_pow2; lia).
    set (s := Z.log2 N - 52) in *.
    assert (Z.log2 N = 52 + s) as Hlog by (subst s; lia).
    rewrite Hlog in Hl, Hu.
    replace (Z.succ (52 + s)) with (53 + s) in Hu by lia.
    rewrite Z.pow_add_r in Hl, Hu by lia.
    exists (2 ^ s). split; [|split; [|reflexivity]].
    + assert (s = 1 \/ s = 2 \/ s = 3 \/ s = 4 \/ s = 5 \/ s = 6 \/ s = 7 \/ s = 8 \/
              s = 9 \/ s = 10 \/ s = 11 \/ s = 12 \/ s = 13 \/ s = 14) as Hcases by lia.
      unfold is_ulp.
      repeat (destruct Hcases as [->|Hcases]; [cbn; tauto|]). subst s. rewrite Hcases.
      cbn. tauto.
    + change (2 ^ 52) with 4503599627370496 in Hl.
      change (2 ^ 53) with 9007199254740992 in Hu. lia.
Qed.

Ltac ulp_cases H :=
  unfold is_ulp in H;
  repeat (destruct H as [H|H]); subst.

Ltac round_cases :=
  unfold round_to_even; cbv zeta;
  repeat match goal with
         | |- context [if Z.ltb ?c ?d then _ else _] => destruct (Z.ltb_spec c d)
         | |- context [if Z.even ?q then _ else _] => destruct (Z.even q)
         end.

Lemma binary64_error (N : Z) :
  0 <= N < 2 ^ 67 -> N - 8192 <= binary64 N <= N + 8192.
Proof.
  intros HN. destruct (binary64_cases N HN) as [[_ ->]|(P & HP & Hrange & ->)]; [lia|].
  ulp_cases HP; round_cases; Z.div_mod_to_equations; lia.
Qed.

Lemma binary64_ge_multiple (N L : Z) :
  0 <= N < 2 ^ 67 -> L mod 16384 = 0 -> L <= N -> L <= binary64 N.
Proof.
  intros HN HL HLN.
  destruct (binary64_cases N HN) as [[_ ->]|(P & HP & Hrange & ->)]; [lia|].
  ulp_cases HP; round_cases; Z.div_mod_to_equations; lia.
Qed.

Lemma binary64_le_multiple (N U : Z) :
  0 <= N < 2 ^ 67 -> U mod 16384 = 0 -> N <= U -> binary64 N <= U.
Proof.
  intros HN HU HNU.
  destruct (binary64_cases N HN) as [[_ ->]|(P & HP & Hrange & ->)]; [lia|].
  ulp_cases HP; round_cases; Z.div_mod_to_equations; lia.
Qed.

Lemma product_bounds (k : Z) :
  is_random_draw k ->
  0 <= binary64 (k * 9000) <= 9000 * 2 ^ 53 - 16384.
Proof.
  unfold is_random_draw, random_resolution. intros Hk.
  assert (0 <= k * 9000 < 2 ^ 67) as HN by lia.
  split; [apply binary64_ge_multiple; [exact HN|reflexivity|lia]|].
  destruct (Z_lt_le_dec (k * 9000) (2 ^ 66)) as [Hsmall|Hbig].
  - transitivity (2 ^ 66); [|lia].
    apply binary64_le_multiple; [exact HN|reflexivity|lia].
  - destruct (binary64_cases _ HN) as [[Hlt _]|(P & HP & Hrange & ->)]; [lia|].
    ulp_cases HP; try lia.
    round_cases; Z.div_mod_to_equations; lia.
Qed.

Lemma pin_number_range (k : Z) :
  is_random_draw k -> 1000 <= pin_number k <= 9999.
Proof.
  intros Hk. pose proof (product_bounds k Hk) as Hx.
  unfold pin_number, random_resolution. cbv zeta.
  set (x := binary64 (k * 9000)) in *.
  assert (0 <= 1000 * 2 ^ 53 + x < 2 ^ 67) as HS by lia.
  pose proof (binary64_ge_multiple _ (1000 * 2 ^ 53) HS eq_refl ltac:(lia)) as Hlo.
  pose proof (binary64_le_multiple _ (10000 * 2 ^ 53 - 16384) HS eq_refl ltac:(lia)) as Hhi.
  split.
  - apply Z.div_le_lower_bound; lia.
  - assert (binary64 (1000 * 2 ^ 53 + x) / 2 ^ 53 < 10000); [|lia].
    apply Z.div_lt_upper_bound; lia.
Qed.

(** [pin_number] is the floor of [1000 + 9000 k / 2^53] up to the rounding
    error of the two operations, at most [2^-39] in all. *)
Lemma pin_number_interval (k n : Z) :
  is_random_draw k ->
  (n * 2 ^ 53 + 16384 <= 1000 * 2 ^ 53 + k * 9000 < (n + 1) * 2 ^ 53 - 16384 ->
   pin_number k = n) /\
  (pin_number k = n ->
   n * 2 ^ 53 - 16384 <= 1000 * 2 ^ 53 + k * 9000 < (n + 1) * 2 ^ 53 + 16384).
Proof.
  intros Hk. pose proof (product_bounds k Hk) as Hx.
  unfold is_random_draw, random_resolution in Hk.
  assert (0 <= k * 9000 < 2 ^ 67) as HN by lia.
  pose proof (binary64_error _ HN) as Hex.
  unfold pin_number, random_resolution. cbv zeta.
  set (x := binary64 (k * 9000)) in *.
  assert (0 <= 1000 * 2 ^ 53 + x < 2 ^ 67) as HS by lia.
  pose proof (binary64_error _ HS) as Hey.
  set (y := binary64 (1000 * 2 ^ 53 + x)) in *.
  split.
  - intros Hin. symmetry. apply Z.div_unique with (r := y - n * 2 ^ 53); lia.
  - intros <-. pose proof (Z.div_mod y (2 ^ 53) ltac:(lia)).
    pose proof (Z.mod_pos_bound y (2 ^ 53) ltac:(lia)). lia.
Qed.

Lemma pin_number_onto (n : Z) :
  1000 <= n <= 9999 ->
  exists k, is_random_draw k /\ pin_number k = n.
Proof.
  intros Hn. set (k := ((n - 1000) * 2 ^ 53 + 2 ^ 52) / 9000).
  assert (9000 * k <= (n - 1000) * 2 ^ 53 + 2 ^ 52 < 9000 * k + 9000) as Hk.
  { subst k. pose proof (Z.div_mod ((n - 1000) * 2 ^ 53 + 2 ^ 52) 9000 ltac:(lia)).
    pose proof (Z.mod_pos_bound ((n - 1000) * 2 ^ 53 + 2 ^ 52) 9000 ltac:(lia)). lia. }
  assert (is_random_draw k) as Hdraw.
  { unfold is_random_draw, random_resolution. lia. }
  exists k. split; [exact Hdraw|].
  apply (pin_number_interval k n Hdraw). lia.
Qed.

(** The draw [25019997929836 / 2^53] gives 1025: the exact value of
    [1000 + 9000 r] is just below 1025 and the sum rounds up to it. *)
Example pin_number_rounds_up :
  pin_number 25019997929836 = 1025 /\
  (1000 * 2 ^ 53 + 25019997929836 * 9000) / 2 ^ 53 = 1024.
Proof. split; vm_compute; reflexivity. Qed.

Lemma toString_four_digits (n : Z) :
  1000 <= n <= 9999 -> four_digits_no_leading_zero n = true.
Proof.
  intros Hn.
  assert (forallb four_digits_no_leading_zero (seqZ 1000 9000) = true) as Hall
    by (vm_compute; reflexivity).
  rewrite forallb_forall in Hall. apply Hall.
  apply list_elem_of_In, elem_of_seqZ. lia.
Qed.

Lemma generatePin_shape (k : Z) :
  is_random_draw k ->
  1000 <= pin_number k <= 9999 /\
  String.length (_generatePin k) = 4%nat /\
  all_digits (_generatePin k) = true /\
  leading_zero (_generatePin k) = false.
Proof.
  intros Hk. pose proof (pin_number_range k Hk) as Hr. split; [exact Hr|].
  pose proof (toString_four_digits _ Hr) as H4.
  unfold four_digits_no_leading_zero in H4. fold (_generatePin k) in H4.
  apply andb_prop in H4 as [H4 Hz]. apply andb_prop in H4 as [Hlen Hdig].
  apply Nat.eqb_eq in Hlen. apply negb_true_iff in Hz. auto.
Qed.

(** C7 (as the code has it). For every draw of [Math.random], the PIN is
    the decimal text of an integer between 1000 and 9999: exactly four
    characters, all of them digits, the first one never ["0"].  Every
    integer [n] of that range is the PIN number of some draw.  The PIN
    number is the floor of [1000 + 9000 r] up to the rounding of the two
    floating-point operations: it is [n] for every draw with
    [n + 2^-39 <= 1000 + 9000 r < n + 1 - 2^-39] and for no draw outside
    [n - 2^-39 <= 1000 + 9000 r < n + 1 + 2^-39], so the 9000 values get
    equal shares of the draws up to the draws within [2^-39] of an end of
    their interval. *)
Theorem generatePin_four_digits (k n : Z) :
  is_random_draw k ->
  1000 <= n <= 9999 ->
  (1000 <= pin_number k <= 9999 /\
   String.length (_generatePin k) = 4%nat /\
   all_digits (_generatePin k) = true /\
   leading_zero (_generatePin k) = false) /\
  (exists k', is_random_draw k' /\ _generatePin k' = toString n) /\
  (n * 2 ^ 53 + 2 ^ 14 <= 1000 * 2 ^ 53 + k * 9000 < (n + 1) * 2 ^ 53 - 2 ^ 14 ->
   pin_number k = n) /\
  (pin_number k = n ->
   n * 2 ^ 53 - 2 ^ 14 <= 1000 * 2 ^ 53 + k * 9000 < (n + 1) * 2 ^ 53 + 2 ^ 14).
Proof.
  intros Hk Hn. split; [apply generatePin_shape, Hk|]. split.
  - destruct (pin_number_onto n Hn) as (k' & Hk' & Heq).
    exists k'. split; [exact Hk'|]. unfold _generatePin. now rewrite Heq.
  - exact (pin_number_interval k n Hk).
Qed.

Lemma generatePin_four_digits_witness :
  is_random_draw (2 ^ 52) /\ 1000 <= 5500 <= 9999 /\
  _generatePin (2 ^ 52) = "5500" /\
  String.length (_generatePin (2 ^ 52)) = 4%nat /\
  exists k', is_random_draw k' /\ _generatePin k' = toString 5500.
Proof.
  assert (is_random_draw (2 ^ 52)) as Hk by (vm_compute; split; congruence).
  assert (1000 <= 5500 <= 9999) as Hn by lia.
  destruct (generatePin_four_digits (2 ^ 52) 5500 Hk Hn)
    as ((_ & Hlen & _ & _) & Honto & _).
  split; [exact Hk|]. split; [exact Hn|]. split; [reflexivity|].
  split; [exact Hlen|exact Honto].
Defined.

(** C7 as stated fails: no draw yields ["0000"]. *)
Lemma generatePin_never_0000 :
  ~ exists k, is_random_draw k /\ _generatePin k = "0000".
Proof.
  intros (k & Hk & Heq).
  destruct (generatePin_shape k Hk) as (_ & _ & _ & Hz).
  rewrite Heq in Hz. discriminate Hz.
Qed.

(** ** The authenticated set *)

Lemma Set_has_true (x : SocketId) (s : list SocketId) :
  Set_has x s = true <-> x ∈ s.
Proof. unfold Set_has. apply bool_decide_eq_true. Qed.

Lemma Set_has_false (x : SocketId) (s : list SocketId) :
  Set_has x s = false <-> x ∉ s.
Proof. unfold Set_has. apply bool_decide_eq_false. Qed.

Lemma elem_of_Set_add (y x : SocketId) (s : list SocketId) :
  y ∈ Set_add x s <-> y = x \/ y ∈ s.
Proof.
  unfold Set_add. destruct (Set_has x s) eqn:Hx.
  - apply Set_has_true in Hx. split; [auto|]. intros [->|H]; assumption.
  - rewrite elem_of_app, list_elem_of_singleton. tauto.
Qed.

Lemma elem_of_Set_delete (y x : SocketId) (s : list SocketId) :
  y ∈ Set_delete x s <-> y ≠ x /\ y ∈ s.
Proof. unfold Set_delete. apply (list_elem_of_filter (fun z => z ≠ x)). Qed.

Lemma Set_add_NoDup (x : SocketId) (s : list SocketId) :
  NoDup s -> NoDup (Set_add x s).
Proof.
  intros Hnd. unfold Set_add. destruct (Set_has x s) eqn:Hx; [exact Hnd|].
  apply Set_has_false in Hx. apply NoDup_app. split; [exact Hnd|]. split.
  - intros y Hy Hy'. apply list_elem_of_singleton in Hy'. subst y. contradiction.
  - apply NoDup_singleton.
Qed.

(** ** Broadcast *)

Section Bridge.
Context {Owner : Type}.
Implicit Types (b : RemoteUiServer Owner) (w : World Owner) (i : Input Owner).

Lemma elem_of_broadcast b (m : RemoteMessage) (e : Effect) :
  e ∈ broadcast b m <->
  exists to, e = Emit to (message m) /\
             to ∈ _authenticatedSockets b /\ to ∈ connections b.
Proof.
  unfold broadcast, connections. destruct (_io b) as [io|].
  - rewrite list_elem_of_In, in_flat_map. split.
    + intros (to & Hto & He). unfold io_to_emit in He.
      case_bool_decide as Hconn; [|destruct He].
      destruct He as [<-|[]]. exists to.
      rewrite <- list_elem_of_In in Hto. auto.
    + intros (to & -> & Hauth & Hconn). exists to.
      rewrite <- list_elem_of_In. split; [exact Hauth|].
      unfold io_to_emit. rewrite bool_decide_eq_true_2 by exact Hconn.
      left. reflexivity.
  - split.
    + intros H. inversion H.
    + intros (to & _ & _ & H). inversion H.
Qed.

Lemma elem_of_received (sid : SocketId) (ev : ServerEvent) (effects : list Effect) :
  ev ∈ received sid effects <-> Emit sid ev ∈ effects.
Proof.
  induction effects as [|e l IH]; cbn.
  - split; intros H; inversion H.
  - destruct e as [to ev'| |]; rewrite ?elem_of_cons, ?IH.
    + destruct (String.eqb_spec to sid) as [->|Hne].
      * rewrite elem_of_cons, IH. split; intros [H|H]; auto.
        -- left. congruence.
        -- left. congruence.
      * rewrite IH. split; [auto|]. intros [H|H]; [congruence|exact H].
    + split; [auto|]. intros [H|H]; [discriminate|exact H].
    + split; [auto|]. intros [H|H]; [discriminate|exact H].
Qed.

Lemma received_app (sid : SocketId) (l1 l2 : list Effect) :
  received sid (l1 ++ l2) = (received sid l1 ++ received sid l2)%list.
Proof.
  induction l1 as [|e l IH]; cbn; [reflexivity|].
  destruct e as [to ev| |]; [|exact IH|exact IH].
  destruct (String.eqb to sid); cbn; [f_equal|]; exact IH.
Qed.

Lemma broadcast_not_to_unauthenticated b (m : RemoteMessage) (sid : SocketId)
  (ev : ServerEvent) :
  sid ∉ _authenticatedSockets b -> Emit sid ev ∉ broadcast b m.
Proof.
  intros Hsid He. apply elem_of_broadcast in He as (to & Heq & Hto & _).
  inversion Heq; subst. contradiction.
Qed.

Lemma stop_returns w : stop w = Normal (stopped w).
Proof.
  destruct w as [b o gs]. destruct b as [srv io p pn sid auth cbm cbs old].
  unfold stop, stopped. cbn. destruct io, srv; reflexivity.
Qed.

Lemma start_keeps p (env : Environment) w :
  _pin (this (fst (start p env w))) = _pin (this w) /\
  _sessionId (this (fst (start p env w))) = _sessionId (this w) /\
  _authenticatedSockets (this (fst (start p env w))) = _authenticatedSockets (this w) /\
  _onMessageCallback (this (fst (start p env w))) = _onMessageCallback (this w) /\
  _getStateCallback (this (fst (start p env w))) = _getStateCallback (this w).
Proof.
  unfold start. cbn zeta.
  destruct (_findAvailablePort _ _) as [q|e]; [|cbn; auto].
  destruct (listen_succeeds env q); cbn; auto.
Qed.

(** One turn of the event loop leaves the PIN alone. *)
Lemma step_pin i w : _pin (this (fst (step i w))) = _pin (this w).
Proof.
  destruct i as [sid|sid [data_pin|m|]|m|cb|cb|p env| |f|n s']; cbn.
  - unfold on_connection. destruct (_io (this w)); reflexivity.
  - unfold on_authenticate. destruct (String.eqb data_pin _); [|reflexivity].
    cbn. destruct (_getStateCallback (this w)); reflexivity.
  - unfold on_message. destruct (negb _); [reflexivity|].
    destruct (_onMessageCallback (this w)) as [cb|]; [|reflexivity].
    destruct (cb m (owner w)). reflexivity.
  - reflexivity.
  - reflexivity.
  - reflexivity.
  - reflexivity.
  - apply start_keeps.
  - rewrite stop_returns. reflexivity.
  - reflexivity.
  - reflexivity.
Qed.

(** A socket that is not authenticated and does not present the PIN in
    this turn stays unauthenticated and is sent no ['message']. *)
Lemma step_unauthenticated i w (sid : SocketId) :
  sid ∉ _authenticatedSockets (this w) ->
  authenticates (_pin (this w)) sid i = false ->
  (sid ∉ _authenticatedSockets (this (fst (step i w)))) /\
  (forall m, Emit sid (message m) ∉ snd (step i w)).
Proof.
  intros Hsid Hi.
  destruct i as [s|s [data_pin|m|]|m|cb|cb|p env| |f|n s']; cbn in *.
  - unfold on_connection. destruct (_io (this w)); cbn; split; auto;
      intros m H; inversion H.
  - unfold on_authenticate. destruct (String.eqb_spec data_pin (_pin (this w))) as [->|Hpin].
    + rewrite andb_true_r in Hi. apply String.eqb_neq in Hi. cbn.
      assert (sid ∉ Set_add s (_authenticatedSockets (this w))) as Hnew.
      { rewrite elem_of_Set_add. intros [->|H]; [congruence|contradiction]. }
      destruct (_getStateCallback (this w)); cbn; (split; [exact Hnew|]);
        intros m H; repeat (apply elem_of_cons in H as [H|H]; [discriminate H|]);
        inversion H.
    + cbn. split; [exact Hsid|]. intros m H.
      apply elem_of_cons in H as [H|H]; [discriminate H|inversion H].
  - unfold on_message. destruct (Set_has s (_authenticatedSockets (this w))) eqn:Hs; cbn.
    + apply Set_has_true in Hs.
      destruct (_onMessageCallback (this w)) as [cb|]; cbn.
      * destruct (cb m (owner w)) as [o' actions]. cbn. split; [exact Hsid|].
        intros m' H. apply elem_of_cons in H as [H|H]; [discriminate H|].
        rewrite list_elem_of_In, in_flat_map in H. destruct H as (a & _ & H).
        rewrite <- list_elem_of_In in H. destruct a as [r|r]; cbn in H.
        -- apply list_elem_of_singleton in H. inversion H; subst. contradiction.
        -- revert H. apply broadcast_not_to_unauthenticated, Hsid.
      * split; [exact Hsid|]. intros m' H. inversion H.
    + split; [exact Hsid|]. intros m' H.
      apply elem_of_cons in H as [H|H]; [discriminate H|inversion H].
  - unfold on_disconnect. cbn. split.
    + rewrite elem_of_Set_delete. tauto.
    + intros m H. inversion H.
  - split; [exact Hsid|]. intros m'. apply broadcast_not_to_unauthenticated, Hsid.
  - split; [exact Hsid|]. intros m H. inversion H.
  - split; [exact Hsid|]. intros m H. inversion H.
  - split; [|intros m H; inversion H].
    destruct (start_keeps p env w) as (_ & _ & -> & _). exact Hsid.
  - rewrite stop_returns. cbn. split; intros; [|intros H; inversion H].
    intros H; inversion H.
  - split; [exact Hsid|]. intros m H. inversion H.
  - split; [exact Hsid|]. intros m H. inversion H.
Qed.

Lemma run_unauthenticated (inputs : list (Input Owner)) w (sid : SocketId) :
  sid ∉ _authenticatedSockets (this w) ->
  forallb (fun i => negb (authenticates (_pin (this w)) sid i)) inputs = true ->
  forall m, Emit sid (message m) ∉ snd (run inputs w).
Proof.
  revert w. induction inputs as [|i rest IH]; intros w Hsid Hin m; cbn.
  - intros H. inversion H.
  - cbn in Hin. apply andb_prop in Hin as [Hi Hrest].
    apply negb_true_iff in Hi.
    destruct (step_unauthenticated i w sid Hsid Hi) as [Hsid' Hstep].
    pose proof (step_pin i w) as Hpin.
    destruct (step i w) as [w1 e1]. cbn in *.
    specialize (IH w1 Hsid'). rewrite Hpin in IH. specialize (IH Hrest m).
    destruct (run rest w1) as [w2 e2]. cbn in *.
    rewrite elem_of_app. intros [H|H]; [exact (Hstep m H)|exact (IH H)].
Qed.

Lemma received_flat_map_emit (io : SocketIOServer) (ev : ServerEvent)
  (sid : SocketId) (l : list SocketId) :
  NoDup l -> sid ∈ l -> sid ∈ sockets io ->
  received sid (flat_map (fun socketId => io_to_emit io socketId ev) l) = [ev].
Proof.
  intros Hnd Hin Hconn. induction Hnd as [|x l Hx Hnd IH]; [inversion Hin|].
  cbn [flat_map]. rewrite received_app.
  destruct (String.string_dec x sid) as [->|Hne].
  - unfold io_to_emit at 1. rewrite bool_decide_eq_true_2 by exact Hconn.
    cbn [received]. rewrite String.eqb_refl.
    assert (received sid (flat_map (fun socketId => io_to_emit io socketId ev) l) = [])
      as ->; [|reflexivity].
    clear IH Hin Hnd. induction l as [|y l IH]; [reflexivity|].
    cbn [flat_map]. rewrite received_app, IH.
    + unfold io_to_emit. case_bool_decide; [|reflexivity].
      cbn [received]. assert (String.eqb y sid = false) as ->; [|reflexivity].
      apply String.eqb_neq. intros ->. apply Hx. left.
    + intros H. apply Hx. right. exact H.
  - apply elem_of_cons in Hin as [->|Hin]; [congruence|].
    rewrite (IH Hin). unfold io_to_emit. case_bool_decide; [|reflexivity].
    cbn [received]. assert (String.eqb x sid = false) as ->; [|reflexivity].
    apply String.eqb_neq. exact Hne.
Qed.

(** The authenticated set never lists a socket twice. *)
Lemma step_NoDup i w :
  NoDup (_authenticatedSockets (this w)) ->
  NoDup (_authenticatedSockets (this (fst (step i w)))).
Proof.
  intros Hnd.
  destruct i as [s|s [data_pin|m|]|m|cb|cb|p env| |f|n s']; cbn.
  - unfold on_connection. destruct (_io (this w)); exact Hnd.
  - unfold on_authenticate. destruct (String.eqb data_pin _); [|exact Hnd].
    cbn. destruct (_getStateCallback (this w)); cbn; apply Set_add_NoDup, Hnd.
  - unfold on_message. destruct (negb _); [exact Hnd|].
    destruct (_onMessageCallback (this w)) as [cb|]; [|exact Hnd].
    destruct (cb m (owner w)). exact Hnd.
  - unfold Set_delete. apply NoDup_filter, Hnd.
  - exact Hnd.
  - exact Hnd.
  - exact Hnd.
  - destruct (start_keeps p env w) as (_ & _ & -> & _). exact Hnd.
  - rewrite stop_returns. cbn. apply NoDup_nil_2.
  - exact Hnd.
  - exact Hnd.
Qed.

Lemma run_NoDup (inputs : list (Input Owner)) w :
  NoDup (_authenticatedSockets (this w)) ->
  NoDup (_authenticatedSockets (this (fst (run inputs w)))).
Proof.
  revert w. induction inputs as [|i rest IH]; intros w Hnd; cbn; [exact Hnd|].
  pose proof (step_NoDup i w Hnd) as H1.
  destruct (step i w) as [w1 e1]. cbn in H1. specialize (IH w1 H1).
  destruct (run rest w1) as [w2 e2]. exact IH.
Qed.

(** X22. At a call of [broadcast(m)], a socket connected to the server's
    current Socket.IO instance is sent [m] as a ['message'] exactly when it is in
    the authenticated set, and the call sends nothing but [m], and only to
    authenticated sockets.  In a world reached from a server with an empty
    authenticated set (a constructed one, say), an authenticated connected
    socket receives [m] exactly once.  A socket that is not authenticated and never
    presents the PIN receives no ['message'] at all, whatever else happens
    on the server (any number of broadcasts, relays for other sockets,
    starts and stops). *)
Theorem broadcast_reaches_exactly_the_authenticated w (m : RemoteMessage)
  (sid : SocketId) :
  sid ∈ connections (this w) ->
  (Emit sid (message m) ∈ broadcast (this w) m
   <-> sid ∈ _authenticatedSockets (this w)) /\
  (forall e, e ∈ broadcast (this w) m ->
     exists to, e = Emit to (message m) /\ to ∈ _authenticatedSockets (this w)) /\
  (forall (before : list (Input Owner)) (b0 : RemoteUiServer Owner) o gs,
     _authenticatedSockets b0 = [] ->
     w = fst (run before {| this := b0; owner := o; globalState := gs |}) ->
     sid ∈ _authenticatedSockets (this w) ->
     received sid (broadcast (this w) m) = [message m]) /\
  (sid ∉ _authenticatedSockets (this w) ->
   forall inputs : list (Input Owner),
     forallb (fun i => negb (authenticates (_pin (this w)) sid i)) inputs = true ->
     forall m', message m' ∉ received sid (snd (run inputs w))).
Proof.
  intros Hconn. split; [|split; [|split]].
  - rewrite elem_of_broadcast. split.
    + intros (to & Heq & Hauth & _). inversion Heq; subst. exact Hauth.
    + intros Hauth. exists sid. auto.
  - intros e He. apply elem_of_broadcast in He as (to & -> & Hauth & _).
    exists to. auto.
  - intros before b0 o gs Hempty -> Hauth.
    set (w := fst (run before _)) in *.
    assert (NoDup (_authenticatedSockets (this w))) as Hnd.
    { apply run_NoDup. cbn. rewrite Hempty. apply NoDup_nil_2. }
    unfold broadcast, connections in *. destruct (_io (this w)) as [io|].
    + apply received_flat_map_emit; assumption.
    + inversion Hconn.
  - intros Hsid inputs Hin m'. rewrite elem_of_received.
    apply run_unauthenticated; assumption.
Qed.

(** ** Authentication and the initial state *)

Lemma on_authenticate_match w (sid : SocketId) :
  on_authenticate sid (_pin (this w)) w
  = (set_this (set_authenticatedSockets
                 (Set_add sid (_authenticatedSockets (this w))) (this w)) w,
     match _getStateCallback (this w) with
     | Some getState =>
         [Emit sid (authenticated true None); CallGetState;
          Emit sid (initialState (getState (owner w)))]
     | None => [Emit sid (authenticated true None)]
     end).
Proof.
  unfold on_authenticate. rewrite String.eqb_refl. cbn.
  destruct (_getStateCallback (this w)); reflexivity.
Qed.

Lemma on_authenticate_mismatch w (sid : SocketId) (data_pin : string) :
  data_pin ≠ _pin (this w) ->
  on_authenticate sid data_pin w
  = (w, [Emit sid (authenticated false (Some "Invalid PIN"))]).
Proof.
  intros Hne. unfold on_authenticate.
  apply String.eqb_neq in Hne. rewrite Hne. reflexivity.
Qed.

Lemma run_cons i (rest : list (Input Owner)) w :
  snd (run (i :: rest) w)
  = (snd (step i w) ++ snd (run rest (fst (step i w))))%list.
Proof.
  cbn. destruct (step i w) as [w1 e1]. cbn.
  destruct (run rest w1) as [w2 e2]. reflexivity.
Qed.


(** C5. A candidate is accepted exactly when it equals the server's PIN.
    On a mismatch the handler only emits
    [authenticated {success: false, error: 'Invalid PIN'}] to the socket:
    the world is unchanged, so the socket stays unauthenticated and
    connected, and a later ['authenticate'] with the PIN on the same socket
    succeeds. *)
Theorem authenticate_validates_pin w (sid : SocketId) (data_pin : string) :
  sid ∉ _authenticatedSockets (this w) ->
  data_pin ≠ _pin (this w) ->
  (forall candidate,
     (sid ∈ _authenticatedSockets (this (fst (on_authenticate sid candidate w)))
      <-> candidate = _pin (this w)) /\
     (Emit sid (authenticated true None) ∈ snd (on_authenticate sid candidate w)
      <-> candidate = _pin (this w))) /\
  on_authenticate sid data_pin w
  = (w, [Emit sid (authenticated false (Some "Invalid PIN"))]) /\
  (sid ∉ _authenticatedSockets (this (fst (on_authenticate sid data_pin w)))) /\
  connections (this (fst (on_authenticate sid data_pin w))) = connections (this w) /\
  sid ∈ _authenticatedSockets
          (this (fst (on_authenticate sid (_pin (this w))
                        (fst (on_authenticate sid data_pin w))))).
Proof.
  intros Hsid Hne. split; [|rewrite (on_authenticate_mismatch _ _ _ Hne); cbn].
  - intros candidate. destruct (String.string_dec candidate (_pin (this w))) as [->|Hc].
    + rewrite on_authenticate_match. cbn. split.
      * rewrite elem_of_Set_add. tauto.
      * split; [reflexivity|]. intros _.
        destruct (_getStateCallback (this w)); apply elem_of_cons; left; reflexivity.
    + rewrite (on_authenticate_mismatch _ _ _ Hc). cbn. split.
      * tauto.
      * split; [|tauto]. intros H.
        apply elem_of_cons in H as [H|H]; [discriminate H|inversion H].
  - split; [reflexivity|]. split; [exact Hsid|]. split; [reflexivity|].
    rewrite on_authenticate_match. cbn. rewrite elem_of_Set_add. auto.
Qed.

(** ** Inbound relay *)

(** C4 (as the code has it). A ['message'] from a socket outside the
    authenticated set is answered with the [error] event
    ['Not authenticated'] to that socket only; nothing else happens and the
    message callback is not called.  A ['message'] from an authenticated
    socket is handed unchanged to the message callback when one is
    registered: the owner's state becomes what the callback returns and the
    handler's effects start with that call.  With no callback registered the
    message is dropped silently. *)
Theorem message_relay w (sid : SocketId) (m : RemoteMessage) :
  (sid ∉ _authenticatedSockets (this w) ->
   on_message sid m w = (w, [Emit sid (error "Not authenticated")])) /\
  (sid ∈ _authenticatedSockets (this w) ->
   forall callback, _onMessageCallback (this w) = Some callback ->
     on_message sid m w
     = ({| this := this w; owner := fst (callback m (owner w));
           globalState := globalState w |},
        CallOnMessage m
          :: flat_map (perform (this w) sid) (snd (callback m (owner w))))) /\
  (sid ∈ _authenticatedSockets (this w) ->
   _onMessageCallback (this w) = None ->
   on_message sid m w = (w, [])).
Proof.
  unfold on_message. split; [|split].
  - intros Hsid. apply Set_has_false in Hsid. rewrite Hsid. reflexivity.
  - intros Hsid callback Hcb. apply Set_has_true in Hsid. rewrite Hsid, Hcb. cbn.
    destruct (callback m (owner w)). reflexivity.
  - intros Hsid Hcb. apply Set_has_true in Hsid. rewrite Hsid, Hcb. reflexivity.
Qed.

(** ** Stopping *)

Lemma filter_twice {A : Type} (P : A -> Prop) `{!forall x, Decision (P x)} (l : list A) :
  filter P (filter P l) = filter P l.
Proof.
  induction l as [|x l IH]; [reflexivity|].
  rewrite filter_cons. case_decide as HP; [|exact IH].
  rewrite filter_cons. rewrite decide_True by exact HP. now rewrite IH.
Qed.

Lemma stopped_twice w : stopped (stopped w) = stopped w.
Proof.
  unfold stopped. cbn. f_equal.
  unfold _unregisterSession, globalState_update. cbn. f_equal.
  apply (filter_twice (fun s => id s ≠ _sessionId (this w))).
Qed.

Lemma unregistered_absent b (gs : GlobalState) (s : SessionInfo) :
  s ∈ _getAllSessions (_unregisterSession b gs) -> id s ≠ _sessionId b.
Proof.
  unfold _unregisterSession, globalState_update, _getAllSessions. cbn.
  intros H. apply (list_elem_of_filter (fun s => id s ≠ _sessionId b)) in H.
  tauto.
Qed.

(** C8. [stop] never throws, whether or not the server was started: it
    returns a world whose registry holds no record with this server's
    session id.  Stopping again returns normally too and changes nothing,
    so the registry is without the record after either call. *)
Theorem stop_is_idempotent w :
  exists w1,
    stop w = Normal w1 /\
    stop w1 = Normal w1 /\
    _sessionId (this w1) = _sessionId (this w) /\
    forall s, s ∈ _getAllSessions (globalState w1) -> id s ≠ _sessionId (this w).
Proof.
  exists (stopped w). split; [apply stop_returns|]. split; [|split].
  - rewrite stop_returns, stopped_twice. reflexivity.
  - reflexivity.
  - intros s. cbn. apply unregistered_absent.
Qed.

(** ** Where the PIN lives *)

Lemma registerSession_last b folders now (gs : GlobalState) :
  exists older,
    _getAllSessions (_registerSession b folders now gs)
    = (older ++ [ {| id := _sessionId b; workspaceName := workspaceName_of folders;
                     port := _port b; startTime := now; pin := _pin b |} ])%list.
Proof.
  unfold _registerSession, globalState_update, _getAllSessions. cbn.
  eexists. reflexivity.
Qed.

(** C6 (as the code has it). The PIN of a server is the one its
    constructor generated from a draw of [Math.random].  It is not held in
    memory only: every [start] that resolves writes it to [globalState], as
    the [pin] of the record it registers under the server's session id and
    port. *)
Theorem start_stores_the_pin (random_pin now : Z) (random_suffix : string)
  (preferredPort : option Z) (env : Environment) w (p : Z) :
  snd (start preferredPort env w) = Normal p ->
  _pin (@new_RemoteUiServer Owner random_pin now random_suffix)
  = _generatePin random_pin /\
  exists s,
    s ∈ _getAllSessions (globalState (fst (start preferredPort env w))) /\
    id s = _sessionId (this (fst (start preferredPort env w))) /\
    port s = p /\
    pin s = _pin (this (fst (start preferredPort env w))).
Proof.
  intros Hstart. split; [reflexivity|].
  revert Hstart. unfold start. cbn zeta.
  destruct (_findAvailablePort _ _) as [q|e]; [|discriminate].
  destruct (listen_succeeds env q); [|discriminate].
  cbn [fst snd]. intros [= ->]. cbn [globalState this].
  destruct (registerSession_last
              (_setupSocketIO (set_server (Some {| address_port := p; listening := true |})
                                 (set_port p (this w))))
              (workspaceFolders env) (Date_now env) (globalState w)) as [older ->].
  eexists. split; [apply elem_of_app; right; apply list_elem_of_singleton; reflexivity|].
  cbn. auto.
Qed.

End Bridge.

(** ** The session listing *)

Lemma toJSON_inj (s1 s2 : SessionInfo) : toJSON s1 = toJSON s2 -> s1 = s2.
Proof.
  destruct s1, s2. unfold toJSON. cbn. intros H. inversion H. reflexivity.
Qed.

(** C10. [GET /api/sessions] answers any request, without looking at it,
    with the JSON array of the records stored in the registry, one entry per
    record and in registry order (the empty array while the registry was
    never written).  Each record is serialised with all five of its
    properties, the [pin] among them, and can be read back from its entry
    unchanged.  In particular, once a server has registered, the last entry
    of the listing is its record, with its PIN. *)
Theorem api_sessions_lists_records_with_pin {Owner : Type} (req : Request)
  (sessions : list SessionInfo) (b : RemoteUiServer Owner)
  (folders : option (list string)) (now : Z) (gs : GlobalState) :
  api_sessions req None = res_json (JArr []) /\
  (exists entries,
     api_sessions req (Some sessions) = res_json (JArr entries) /\
     length entries = length sessions /\
     forall n s, sessions !! n = Some s ->
       exists entry,
         entries !! n = Some entry /\
         property "id" entry = Some (JStr (id s)) /\
         property "workspaceName" entry = Some (JStr (workspaceName s)) /\
         property "port" entry = Some (JNum (port s)) /\
         property "startTime" entry = Some (JNum (startTime s)) /\
         property "pin" entry = Some (JStr (pin s)) /\
         forall s', toJSON s' = entry -> s' = s) /\
  (exists entries entry,
     api_sessions req (_registerSession b folders now gs) = res_json (JArr entries) /\
     last entries = Some entry /\
     property "id" entry = Some (JStr (_sessionId b)) /\
     property "port" entry = Some (JNum (_port b)) /\
     property "pin" entry = Some (JStr (_pin b))).
Proof.
  split; [reflexivity|]. split.
  - exists (toJSON <$> sessions). split; [reflexivity|].
    split; [apply length_fmap|].
    intros n s Hn. exists (toJSON s). rewrite list_lookup_fmap, Hn. cbn.
    repeat (split; [reflexivity|]). intros s'. apply toJSON_inj.
  - unfold api_sessions, _getAllSessions, _registerSession, globalState_update.
    cbn [globalState_get]. eexists. eexists. split; [reflexivity|].
    rewrite fmap_app. cbn [fmap list_fmap]. rewrite last_snoc.
    split; [reflexivity|]. cbn. auto.
Qed.

(** * The properties on sample runs *)



(** C2 (the code at the failing input). After a second [start] without a
    [stop], the socket that authenticated before is still connected, to the
    replaced Socket.IO instance, and still authenticated: its messages are
    still forwarded to the message callback.  A [broadcast] reaches the new
    instance only, so it delivers nothing to that socket. *)
Theorem broadcast_misses_sockets_of_a_replaced_instance :
  "socket-1" ∈ open_connections (this restarted_world) /\
  "socket-1" ∈ _authenticatedSockets (this restarted_world) /\
  forwarded (snd (on_message "socket-1" sample_message restarted_world))
  = [sample_message] /\
  _io (this restarted_world) = Some {| sockets := [] |} /\
  broadcast (this restarted_world) sample_message = [] /\
  received "socket-1" (snd (run [call_broadcast sample_message] restarted_world)) = [].
Proof.
  split; [apply list_elem_of_In; vm_compute; auto|].
  split; [apply list_elem_of_In; vm_compute; auto|].
  repeat split; reflexivity.
Qed.

Lemma broadcast_reaches_exactly_the_authenticated_witness :
  "socket-2" ∈ connections (this wired_world) /\
  (Emit "socket-2" (message sample_message) ∈ broadcast (this wired_world) sample_message
   <-> "socket-2" ∈ _authenticatedSockets (this wired_world)) /\
  (forall m', message m' ∉
     received "socket-2"
       (snd (run [ call_broadcast sample_message;
                   socket_on "socket-1" (on_message_event sample_message);
                   socket_on "socket-2" (on_authenticate_event "1234");
                   call_broadcast sample_message ] wired_world))).
Proof.
  assert ("socket-2" ∈ connections (this wired_world)) as Hconn.
  { apply list_elem_of_In. vm_compute. auto. }
  assert ("socket-2" ∉ _authenticatedSockets (this wired_world)) as Hsid.
  { intros H. apply list_elem_of_In in H. vm_compute in H. intuition discriminate. }
  destruct (broadcast_reaches_exactly_the_authenticated wired_world sample_message
              "socket-2" Hconn) as (Hiff & _ & _ & Hnever).
  split; [exact Hconn|]. split; [exact Hiff|].
  apply (Hnever Hsid). reflexivity.
Defined.

Example broadcast_to_mixed_sockets :
  broadcast (this wired_world) sample_message
  = [Emit "socket-1" (message sample_message)].
Proof. reflexivity. Qed.

Lemma authenticate_validates_pin_witness :
  ("socket-2" ∉ _authenticatedSockets (this bare_world)) /\
  ("0000" ≠ _pin (this bare_world)) /\
  on_authenticate "socket-2" "0000" bare_world
  = (bare_world, [Emit "socket-2" (authenticated false (Some "Invalid PIN"))]) /\
  "socket-2" ∈ _authenticatedSockets
     (this (fst (on_authenticate "socket-2" (_pin (this bare_world))
                   (fst (on_authenticate "socket-2" "0000" bare_world))))).
Proof.
  assert ("socket-2" ∉ _authenticatedSockets (this bare_world)) as Hsid.
  { intros H. apply list_elem_of_In in H. vm_compute in H. intuition discriminate. }
  assert ("0000" ≠ _pin (this bare_world)) as Hne.
  { intros H. vm_compute in H. discriminate H. }
  destruct (authenticate_validates_pin bare_world "socket-2" "0000" Hsid Hne)
    as (_ & Hfail & _ & _ & Hretry).
  split; [exact Hsid|]. split; [exact Hne|]. split; [exact Hfail|exact Hretry].
Defined.

(** C4 as stated fails: with no message callback registered, a
    ['message'] from an authenticated socket goes nowhere. *)
Lemma message_without_callback_is_dropped :
  "socket-1" ∈ _authenticatedSockets (this bare_world) /\
  _onMessageCallback (this bare_world) = None /\
  on_message "socket-1" sample_message bare_world = (bare_world, []) /\
  List.filter is_CallOnMessage
    (snd (on_message "socket-1" sample_message bare_world)) = [].
Proof.
  split; [apply list_elem_of_In; vm_compute; auto|]. repeat split; reflexivity.
Qed.

Example relay_cases_on_sample :
  on_message "socket-2" sample_message wired_world
  = (wired_world, [Emit "socket-2" (error "Not authenticated")]) /\
  snd (on_message "socket-1" sample_message wired_world)
  = [CallOnMessage sample_message; Emit "socket-1" (message sample_message)] /\
  owner (fst (on_message "socket-1" sample_message wired_world)) = 1%nat.
Proof. repeat split; reflexivity. Qed.

Lemma start_stores_the_pin_witness :
  snd (start (Some 3000) sample_environment
         {| this := sample_server; owner := 0%nat; globalState := None |})
  = Normal 3001 /\
  exists s,
    s ∈ _getAllSessions
          (globalState (fst (start (Some 3000) sample_environment
             {| this := sample_server; owner := 0%nat; globalState := None |}))) /\
    id s = "session_1700000000000_k3x9q2a" /\ port s = 3001 /\ pin s = "5500".
Proof.
  assert (snd (start (Some 3000) sample_environment
                 {| this := sample_server; owner := 0%nat; globalState := None |})
          = Normal 3001) as Hstart by reflexivity.
  split; [exact Hstart|].
  destruct (start_stores_the_pin (Owner := nat) (2 ^ 52) 1700000000000 "k3x9q2a"
              (Some 3000) sample_environment _ 3001 Hstart)
    as (_ & s & Hin & Hid & Hport & Hpin).
  exists s. split; [exact Hin|]. split; [exact Hid|]. split; [exact Hport|exact Hpin].
Defined.

(** C6 as stated fails: [start] does not draw a new PIN, and the PIN is
    written to the persistent [globalState].  Started, stopped and started
    again, the sample server has the PIN of its construction throughout,
    and the registry holds it. *)
Lemma start_keeps_and_stores_the_pin :
  let w0 := {| this := sample_server; owner := 0%nat; globalState := None |} in
  let w1 := fst (start (Some 3000) sample_environment w0) in
  let w2 := fst (start (Some 3000) sample_environment (stopped w1)) in
  snd (start (Some 3000) sample_environment w0) = Normal 3001 /\
  snd (start (Some 3000) sample_environment (stopped w1)) = Normal 3001 /\
  _pin (this w0) = "5500" /\ _pin (this w1) = "5500" /\ _pin (this w2) = "5500" /\
  pin <$> _getAllSessions (globalState w1) = ["5500"] /\
  pin <$> _getAllSessions (globalState w2) = ["5500"].
Proof. cbn zeta. repeat split; reflexivity. Qed.

(** * Further properties of the server file *)

(** ** [_escapeHtml] *)

Lemma append_nil_l (s : string) : "" ++ s = s.
Proof. reflexivity. Qed.

Lemma occurs_app (c : ascii) (s1 s2 : string) :
  occurs c (s1 ++ s2) = (occurs c s1 || occurs c s2)%bool.
Proof.
  induction s1 as [|d s1 IH]; simpl; [reflexivity|].
  rewrite IH. apply orb_assoc.
Qed.

(** The five rows of the table. *)
Lemma html_entity_Some (c : ascii) (entity : string) :
  html_entity c = Some entity ->
  (c = "&"%char /\ entity = "&amp;") \/
  (c = "<"%char /\ entity = "&lt;") \/
  (c = ">"%char /\ entity = "&gt;") \/
  (c = "034"%char /\ entity = "&quot;") \/
  (c = "'"%char /\ entity = "&#039;").
Proof.
  unfold html_entity.
  destruct (Ascii.eqb_spec c "&") as [->|_]; [intros [= <-]; auto 10|].
  destruct (Ascii.eqb_spec c "<") as [->|_]; [intros [= <-]; auto 10|].
  destruct (Ascii.eqb_spec c ">") as [->|_]; [intros [= <-]; auto 10|].
  destruct (Ascii.eqb_spec c "034") as [->|_]; [intros [= <-]; auto 10|].
  destruct (Ascii.eqb_spec c "'") as [->|_]; [intros [= <-]; auto 10|].
  discriminate.
Qed.

Lemma html_entity_None (c : ascii) :
  html_entity c = None ->
  c <> "&"%char /\ c <> "<"%char /\ c <> ">"%char /\ c <> "034"%char /\ c <> "'"%char.
Proof.
  intros H. repeat split; intros ->; discriminate H.
Qed.

(** X1. The text [_escapeHtml] returns contains none of the characters
    [<], [>], the double quote and the apostrophe, whatever the input. *)
Theorem escapeHtml_leaves_no_markup (text : string) :
  occurs "<" (_escapeHtml text) = false /\
  occurs ">" (_escapeHtml text) = false /\
  occurs "034" (_escapeHtml text) = false /\
  occurs "'" (_escapeHtml text) = false.
Proof.
  induction text as [|c rest (IH1 & IH2 & IH3 & IH4)]; cbn; [auto|].
  destruct (html_entity c) as [entity|] eqn:Hc.
  - rewrite !occurs_app, IH1, IH2, IH3, IH4.
    apply html_entity_Some in Hc
      as [[_ ->]|[[_ ->]|[[_ ->]|[[_ ->]|[_ ->]]]]]; auto.
  - apply html_entity_None in Hc as (_ & H1 & H2 & H3 & H4).
    cbn. rewrite IH1, IH2, IH3, IH4.
    repeat split; rewrite orb_false_r; apply Ascii.eqb_neq; assumption.
Qed.

Lemma escapeHtml_cons_inv (c d : ascii) (r1 r2 : string) :
  _escapeHtml (String c r1) = _escapeHtml (String d r2) ->
  c = d /\ _escapeHtml r1 = _escapeHtml r2.
Proof.
  cbn. destruct (html_entity c) as [e1|] eqn:Hc, (html_entity d) as [e2|] eqn:Hd.
  - apply html_entity_Some in Hc
      as [[-> ->]|[[-> ->]|[[-> ->]|[[-> ->]|[-> ->]]]]];
    apply html_entity_Some in Hd
      as [[-> ->]|[[-> ->]|[[-> ->]|[[-> ->]|[-> ->]]]]];
    cbn; intros H; try discriminate H; inversion H; auto.
  - apply html_entity_None in Hd as (Hd & _).
    apply html_entity_Some in Hc
      as [[_ ->]|[[_ ->]|[[_ ->]|[[_ ->]|[_ ->]]]]];
    cbn; intros H; inversion H; congruence.
  - apply html_entity_None in Hc as (Hc & _).
    apply html_entity_Some in Hd
      as [[_ ->]|[[_ ->]|[[_ ->]|[[_ ->]|[_ ->]]]]];
    cbn; intros H; inversion H; congruence.
  - intros H. inversion H. auto.
Qed.

Lemma escapeHtml_nil_inv (s : string) : _escapeHtml s = "" -> s = "".
Proof.
  destruct s as [|c r]; [reflexivity|]. cbn.
  destruct (html_entity c) as [e|] eqn:Hc; [|discriminate].
  apply html_entity_Some in Hc
    as [[_ ->]|[[_ ->]|[[_ ->]|[[_ ->]|[_ ->]]]]]; discriminate.
Qed.

Lemma escapeHtml_inj (s1 s2 : string) :
  _escapeHtml s1 = _escapeHtml s2 -> s1 = s2.
Proof.
  revert s2. induction s1 as [|c r1 IH]; intros s2 H.
  - symmetry. apply escapeHtml_nil_inv. symmetry. exact H.
  - destruct s2 as [|d r2].
    + apply escapeHtml_nil_inv in H. discriminate H.
    + apply escapeHtml_cons_inv in H as [-> H]. f_equal. apply IH, H.
Qed.

(** X2. [_escapeHtml] loses nothing: two texts have the same escaped form
    only if they are the same text. *)
Theorem escapeHtml_injective (s1 s2 : string) :
  _escapeHtml s1 = _escapeHtml s2 <-> s1 = s2.
Proof.
  split; [apply escapeHtml_inj|intros ->; reflexivity].
Qed.

Lemma escapeHtml_length (s : string) :
  (String.length s <= String.length (_escapeHtml s))%nat.
Proof.
  induction s as [|d s IH]; simpl; [lia|].
  destruct (html_entity d) as [e|] eqn:Hd; simpl; [|lia].
  apply html_entity_Some in Hd
    as [[_ ->]|[[_ ->]|[[_ ->]|[[_ ->]|[_ ->]]]]];
    simpl; rewrite append_nil_l; lia.
Qed.

Lemma escapeHtml_fixed (text : string) :
  _escapeHtml text = text <-> has_special text = false.
Proof.
  induction text as [|c rest IH]; cbn; [tauto|].
  unfold is_special. destruct (html_entity c) as [e|] eqn:Hc; cbn.
  - split; [|discriminate]. intros H.
    pose proof Hc as Hc'.
    apply html_entity_Some in Hc
      as [[-> ->]|[[-> ->]|[[-> ->]|[[-> ->]|[-> ->]]]]];
      cbn in H; try discriminate H.
    (* the text after the ampersand would have to be longer than its own
       escaped form *)
    exfalso. inversion H as [Hrest].
    pose proof (escapeHtml_length rest) as Hlen.
    rewrite <- Hrest in Hlen at 1. simpl in Hlen.
    rewrite append_nil_l in Hlen. lia.
  - rewrite <- IH. split; [intros [= H]; exact H|intros ->; reflexivity].
Qed.

(** X3. Escaping is not idempotent: escaping an escaped text changes it
    again unless the original text had none of the five characters, in
    which case [_escapeHtml] returns it unchanged. *)
Theorem escapeHtml_twice (text : string) :
  (_escapeHtml (_escapeHtml text) = _escapeHtml text <-> has_special text = false) /\
  (_escapeHtml text = text <-> has_special text = false).
Proof.
  split; [|apply escapeHtml_fixed].
  rewrite <- escapeHtml_fixed. split.
  - apply escapeHtml_inj.
  - intros H. rewrite !H. reflexivity.
Qed.

(** ** The registry as servers come and go *)

Section RegistryLifecycle.
Context {Owner : Type}.
Implicit Types (b : RemoteUiServer Owner) (w : World Owner) (gs : GlobalState).

Lemma filter_all {A : Type} (P : A -> Prop) `{!forall x, Decision (P x)} (l : list A) :
  (forall x, x ∈ l -> P x) -> filter P l = l.
Proof.
  induction l as [|x l IH]; intros Hall; [reflexivity|].
  rewrite filter_cons, decide_True by (apply Hall; left).
  f_equal. apply IH. intros y Hy. apply Hall. right. exact Hy.
Qed.

(** X4. Registering and then unregistering restores the registry, when no
    listed record had the server's port or session id. *)
Theorem register_then_unregister b (folders : option (list string)) (now : Z) gs :
  (forall s, s ∈ globalState_get gs -> port s ≠ _port b /\ id s ≠ _sessionId b) ->
  _unregisterSession b (_registerSession b folders now gs) = Some (globalState_get gs).
Proof.
  intros Hfree. unfold _unregisterSession, _registerSession, globalState_update.
  cbn [globalState_get]. f_equal.
  rewrite filter_app.
  rewrite (filter_all (fun s => port s ≠ _port b)) by (intros s Hs; apply Hfree, Hs).
  rewrite (filter_all (fun s => id s ≠ _sessionId b)) by (intros s Hs; apply Hfree, Hs).
  rewrite filter_cons, decide_False by (cbn; tauto).
  rewrite filter_nil. apply app_nil_r.
Qed.

Lemma filter_none {A : Type} (P : A -> Prop) `{!forall x, Decision (P x)} (l : list A) :
  (forall x, x ∈ l -> ~ P x) -> filter P l = [].
Proof.
  induction l as [|x l IH]; intros Hall; [reflexivity|].
  rewrite filter_cons, decide_False by (apply Hall; left).
  apply IH. intros y Hy. apply Hall. right. exact Hy.
Qed.

(** X5. A server that registers takes its port over: afterwards the only
    record on that port is its own, with its session id and PIN, whatever
    was listed on the port before; the records on other ports are kept, in
    order. *)
Theorem register_takes_the_port_over b (folders : option (list string)) (now : Z) gs :
  let own := {| id := _sessionId b; workspaceName := workspaceName_of folders;
                port := _port b; startTime := now; pin := _pin b |} in
  let after := _getAllSessions (_registerSession b folders now gs) in
  filter (fun s => port s = _port b) after = [own] /\
  filter (fun s => port s ≠ _port b) after
  = filter (fun s => port s ≠ _port b) (_getAllSessions gs).
Proof.
  cbn zeta. unfold _getAllSessions, _registerSession, globalState_update.
  cbn [globalState_get]. rewrite !filter_app. split.
  - rewrite (filter_none (fun s => port s = _port b)).
    + rewrite filter_cons, decide_True by reflexivity. reflexivity.
    + intros s Hs. apply (list_elem_of_filter (fun s => port s ≠ _port b)) in Hs. tauto.
  - rewrite (filter_twice (fun s => port s ≠ _port b)).
    rewrite filter_cons, decide_False by (cbn; tauto).
    rewrite filter_nil. apply app_nil_r.
Qed.

End RegistryLifecycle.

Lemma register_then_unregister_witness :
  let listed := [ {| id := "session_1699999999999_zzzzzzz"; workspaceName := "other";
                     port := 3000; startTime := 1699999999999; pin := "4321" |} ] in
  _unregisterSession (this bare_world)
    (_registerSession (this bare_world) (Some ["tasksync"]) 1700000000500 (Some listed))
  = Some listed.
Proof.
  cbn zeta.
  apply (register_then_unregister (this bare_world) (Some ["tasksync"]) 1700000000500
           (Some [ {| id := "session_1699999999999_zzzzzzz"; workspaceName := "other";
                      port := 3000; startTime := 1699999999999; pin := "4321" |} ])).
  intros s Hs. apply list_elem_of_singleton in Hs. subst s.
  split; intros H; vm_compute in H; discriminate H.
Defined.

(** ** The life of one server *)

Section Lifecycle.
Context {Owner : Type}.
Implicit Types (b : RemoteUiServer Owner) (w : World Owner) (i : Input Owner).

Lemma step_sessionId i w : _sessionId (this (fst (step i w))) = _sessionId (this w).
Proof.
  destruct i as [sid|sid [data_pin|m|]|m|cb|cb|p env| |f|n s']; cbn.
  - unfold on_connection. destruct (_io (this w)); reflexivity.
  - unfold on_authenticate. destruct (String.eqb data_pin _); [|reflexivity].
    cbn. destruct (_getStateCallback (this w)); reflexivity.
  - unfold on_message. destruct (negb _); [reflexivity|].
    destruct (_onMessageCallback (this w)) as [cb|]; [|reflexivity].
    destruct (cb m (owner w)). reflexivity.
  - reflexivity.
  - reflexivity.
  - reflexivity.
  - reflexivity.
  - apply start_keeps.
  - rewrite stop_returns. reflexivity.
  - reflexivity.
  - reflexivity.
Qed.

Lemma run_app (inputs1 inputs2 : list (Input Owner)) w :
  run (inputs1 ++ inputs2) w
  = (fst (run inputs2 (fst (run inputs1 w))),
     (snd (run inputs1 w) ++ snd (run inputs2 (fst (run inputs1 w))))%list).
Proof.
  revert w. induction inputs1 as [|i rest IH]; intros w; cbn.
  - destruct (run inputs2 w). reflexivity.
  - destruct (step i w) as [w1 e1]. rewrite IH.
    destruct (run rest w1) as [w2 e2]. cbn. rewrite app_assoc. reflexivity.
Qed.

Lemma run_identity (inputs : list (Input Owner)) w :
  _pin (this (fst (run inputs w))) = _pin (this w) /\
  _sessionId (this (fst (run inputs w))) = _sessionId (this w).
Proof.
  revert w. induction inputs as [|i rest IH]; intros w; cbn; [auto|].
  pose proof (step_pin i w) as Hp. pose proof (step_sessionId i w) as Hs.
  destruct (step i w) as [w1 e1]. cbn in Hp, Hs. specialize (IH w1).
  destruct (run rest w1) as [w2 e2]. cbn in *. rewrite <- Hp, <- Hs. exact IH.
Qed.

(** X6. Nothing that can happen to a server changes its PIN or its session
    id: not a start, a stop, a restart, a connection, an authentication or
    a message. *)
Theorem pin_and_session_id_are_fixed (inputs : list (Input Owner)) w :
  _pin (this (fst (run inputs w))) = _pin (this w) /\
  _sessionId (this (fst (run inputs w))) = _sessionId (this w).
Proof. apply run_identity. Qed.

Lemma start_listed p (env : Environment) w :
  listed_while_serving w -> listed_while_serving (fst (start p env w)).
Proof.
  intros [Hio Hpin]. unfold start. cbn zeta.
  destruct (_findAvailablePort _ _) as [q|e]; [|split; assumption].
  destruct (listen_succeeds env q); cbn [fst].
  - unfold listed_while_serving, _getAllSessions, _registerSession, globalState_update.
    cbn. split.
    + split; [|discriminate]. intros _. eexists. split.
      * apply elem_of_app. right. apply list_elem_of_singleton. reflexivity.
      * reflexivity.
    + intros s Hs Hid. apply elem_of_app in Hs as [Hs|Hs].
      * apply (list_elem_of_filter (fun s => port s ≠ q)) in Hs as [_ Hs].
        apply Hpin; assumption.
      * apply list_elem_of_singleton in Hs. subst s. reflexivity.
  - split; assumption.
Qed.

Lemma stop_listed w : listed_while_serving (stopped w).
Proof.
  unfold listed_while_serving, stopped. cbn. split.
  - split; [congruence|]. intros (s & Hs & Hid).
    apply unregistered_absent in Hs. contradiction.
  - intros s Hs Hid. apply unregistered_absent in Hs. contradiction.
Qed.

Lemma step_listed i w :
  listed_while_serving w -> listed_while_serving (fst (step i w)).
Proof.
  intros Hinv.
  destruct i as [sid|sid [data_pin|m|]|m|cb|cb|p env| |f|n s']; cbn.
  - unfold on_connection. destruct Hinv as [Hio Hpin].
    destruct (_io (this w)) eqn:E; cbn; [|split; [rewrite E|]; assumption].
    split; [|exact Hpin]. rewrite <- Hio. split; intros _; discriminate.
  - unfold on_authenticate. destruct (String.eqb data_pin _); [|exact Hinv].
    cbn. destruct (_getStateCallback (this w)); exact Hinv.
  - unfold on_message. destruct (negb _); [exact Hinv|].
    destruct (_onMessageCallback (this w)) as [cb|]; [|exact Hinv].
    destruct (cb m (owner w)). exact Hinv.
  - unfold on_disconnect. destruct Hinv as [Hio Hpin]. split; [|exact Hpin].
    cbn. rewrite <- Hio. destruct (_io (this w)); split; congruence.
  - exact Hinv.
  - exact Hinv.
  - exact Hinv.
  - apply start_listed, Hinv.
  - rewrite stop_returns. apply stop_listed.
  - exact Hinv.
  - exact Hinv.
Qed.

(** X7. A server is listed in the registry exactly while it has a
    Socket.IO instance: in every world reached from one where it has none
    and the registry has no record with its session id, the registry holds a
    record with that id if and only if [_io] is set, and every such record
    carries the server's PIN. *)
Theorem listed_exactly_while_serving (inputs : list (Input Owner)) w :
  _io (this w) = None ->
  (forall s, s ∈ _getAllSessions (globalState w) -> id s ≠ _sessionId (this w)) ->
  let w' := fst (run inputs w) in
  (_io (this w') <> None <->
   exists s, s ∈ _getAllSessions (globalState w') /\ id s = _sessionId (this w)) /\
  (forall s, s ∈ _getAllSessions (globalState w') ->
             id s = _sessionId (this w) -> pin s = _pin (this w)).
Proof.
  intros Hio Hnone. cbn zeta.
  assert (listed_while_serving w) as Hinv.
  { split.
    - rewrite Hio. split; [congruence|]. intros (s & Hs & Hid).
      exfalso. exact (Hnone s Hs Hid).
    - intros s Hs Hid. exfalso. exact (Hnone s Hs Hid). }
  assert (listed_while_serving (fst (run inputs w))) as Hrun.
  { clear Hio Hnone. revert w Hinv.
    induction inputs as [|i rest IH]; intros w Hinv; cbn; [exact Hinv|].
    pose proof (step_listed i w Hinv) as H1.
    destruct (step i w) as [w1 e1]. specialize (IH w1 H1).
    destruct (run rest w1) as [w2 e2]. exact IH. }
  destruct (run_identity inputs w) as [Hp Hs].
  unfold listed_while_serving in Hrun. rewrite Hp, Hs in Hrun. exact Hrun.
Qed.

(** X8. A [start] that fails, because no port was found or because
    listening failed, registers nothing and leaves the Socket.IO instance,
    the authenticated set and the state owner as they were; when no port was
    found, nothing at all has changed. *)
Theorem failed_start_registers_nothing (preferredPort : option Z) (env : Environment)
  w (e : string) :
  snd (start preferredPort env w) = Throw e ->
  globalState (fst (start preferredPort env w)) = globalState w /\
  _io (this (fst (start preferredPort env w))) = _io (this w) /\
  _authenticatedSockets (this (fst (start preferredPort env w)))
  = _authenticatedSockets (this w) /\
  owner (fst (start preferredPort env w)) = owner w /\
  (e = "Could not find available port after 100 attempts" ->
   fst (start preferredPort env w) = w).
Proof.
  unfold start. cbn zeta.
  destruct (_findAvailablePort _ _) as [q|e0]; [|cbn; auto 6].
  destruct (listen_succeeds env q); cbn; [discriminate|].
  intros [= <-]. repeat split. discriminate.
Qed.

(** X9. When [start] resolves with [p], [p] is the first port at or above
    the preferred one (3000 when none, or 0, is given) whose probe
    succeeded, among the first 100; it is the port [getConnectionInfo]
    reports from then on, and the new Socket.IO instance has no
    connection. *)
Theorem start_resolves_with_first_free_port (preferredPort : option Z)
  (env : Environment) w (p : Z) (interfaces : NetworkInterfaces) :
  snd (start preferredPort env w) = Normal p ->
  let startPort :=
    match preferredPort with
    | Some q => if Z.eqb q 0 then 3000 else q
    | None => 3000
    end in
  startPort <= p < startPort + 100 /\
  _checkPort env p = true /\
  (forall q, startPort <= q < p -> _checkPort env q = false) /\
  listen_succeeds env p = true /\
  Info.port (getConnectionInfo (this (fst (start preferredPort env w))) interfaces) = p /\
  _io (this (fst (start preferredPort env w))) <> None /\
  connections (this (fst (start preferredPort env w))) = [].
Proof.
  unfold start. cbn zeta.
  set (startPort := match preferredPort with
                    | Some q => if Z.eqb q 0 then 3000 else q
                    | None => 3000
                    end).
  pose proof (findAvailablePort_loop_spec (_checkPort env) maxAttempts startPort) as Hspec.
  unfold _findAvailablePort.
  destruct (findAvailablePort_loop (_checkPort env) maxAttempts startPort) as [q|e];
    [|discriminate].
  destruct (listen_succeeds env q) eqn:Hlisten; cbn [fst snd]; [|discriminate].
  intros [= ->]. destruct Hspec as (Hrange & Hfree & Hbelow).
  unfold maxAttempts in Hrange. cbn.
  repeat split; try assumption; try lia. discriminate.
Qed.

(** X10. [stop] leaves a server that serves nobody: it has no Socket.IO
    instance and an empty authenticated set, the only sockets still
    connected are those of instances that earlier starts replaced ([stop]
    closes the current instance only), broadcasts reach no socket, and a
    ['message'] from any socket, also one that was authenticated before, is
    refused with ['Not authenticated']. *)
Theorem stopped_server_is_silent w (m : RemoteMessage) (sid : SocketId) :
  match stop w with
  | Normal w1 =>
      _io (this w1) = None /\
      open_connections (this w1) = flat_map sockets (replaced_io (this w)) /\
      _authenticatedSockets (this w1) = [] /\
      broadcast (this w1) m = [] /\
      on_message sid m w1 = (w1, [Emit sid (error "Not authenticated")])
  | Throw _ => False
  end.
Proof.
  rewrite stop_returns. unfold stopped, on_message, open_connections. cbn. auto 6.
Qed.

(** X11. [stop] does not reset the port.  After a [start] that resolved
    with a positive port and a [stop], the test [info.port > 0], by which
    the extension's commands decide that the server is running, still
    succeeds, although the server has no Socket.IO instance any more. *)
Theorem port_test_survives_stop (preferredPort : option Z) (env : Environment)
  w (p : Z) (interfaces : NetworkInterfaces) :
  snd (start preferredPort env w) = Normal p ->
  0 < p ->
  match stop (fst (start preferredPort env w)) with
  | Normal w2 =>
      port_says_running (getConnectionInfo (this w2) interfaces) = true /\
      Info.port (getConnectionInfo (this w2) interfaces) = p /\
      _io (this w2) = None
  | Throw _ => False
  end.
Proof.
  intros Hstart Hp. rewrite stop_returns. unfold stopped, port_says_running. cbn.
  revert Hstart. unfold start. cbn zeta.
  destruct (_findAvailablePort _ _) as [q|e]; [|discriminate].
  destruct (listen_succeeds env q); cbn; [|discriminate].
  intros [= ->]. unfold _setupSocketIO. cbn. split; [|auto]. apply Z.ltb_lt, Hp.
Qed.

End Lifecycle.

Lemma listed_exactly_while_serving_witness :
  let w0 := {| this := sample_server; owner := 0%nat; globalState := None |} in
  let w' := fst (run [ call_start (Some 3000) sample_environment;
                       io_connection "socket-1";
                       call_stop;
                       call_start None sample_environment ] w0) in
  _io (this w0) = None /\
  (_io (this w') <> None <->
   exists s, s ∈ _getAllSessions (globalState w') /\ id s = _sessionId (this w0)).
Proof.
  cbn zeta. split; [reflexivity|].
  apply (listed_exactly_while_serving
           [ call_start (Some 3000) sample_environment;
             io_connection "socket-1";
             call_stop;
             call_start None sample_environment ]
           {| this := sample_server; owner := 0%nat; globalState := None |}).
  - reflexivity.
  - intros s Hs. inversion Hs.
Defined.

Lemma failed_start_registers_nothing_witness :
  let env := {| _checkPort := fun _ => false; listen_succeeds := fun _ => true;
                workspaceFolders := None; Date_now := 1700000000900 |} in
  snd (start (Some 3000) env bare_world)
  = Throw "Could not find available port after 100 attempts" /\
  fst (start (Some 3000) env bare_world) = bare_world.
Proof.
  cbn zeta.
  assert (snd (start (Some 3000)
                 {| _checkPort := fun _ => false; listen_succeeds := fun _ => true;
                    workspaceFolders := None; Date_now := 1700000000900 |} bare_world)
          = Throw "Could not find available port after 100 attempts") as Hfail
    by reflexivity.
  split; [exact Hfail|].
  apply (failed_start_registers_nothing _ _ _ _ Hfail). reflexivity.
Defined.

Lemma start_resolves_with_first_free_port_witness :
  snd (start None sample_environment
         {| this := sample_server; owner := 0%nat; globalState := None |}) = Normal 3001 /\
  3000 <= 3001 < 3000 + 100 /\
  _checkPort sample_environment 3001 = true.
Proof.
  assert (snd (start None sample_environment
                 {| this := sample_server; owner := 0%nat; globalState := None |})
          = Normal 3001) as Hstart by reflexivity.
  split; [exact Hstart|].
  destruct (start_resolves_with_first_free_port None sample_environment _ 3001 []
              Hstart) as (Hrange & Hfree & _).
  split; [exact Hrange|exact Hfree].
Defined.

Lemma port_test_survives_stop_witness :
  snd (start None sample_environment
         {| this := sample_server; owner := 0%nat; globalState := None |}) = Normal 3001 /\
  0 < 3001 /\
  match stop (fst (start None sample_environment
                     {| this := sample_server; owner := 0%nat; globalState := None |})) with
  | Normal w2 =>
      port_says_running (getConnectionInfo (this w2) []) = true /\
      Info.port (getConnectionInfo (this w2) []) = 3001 /\
      _io (this w2) = None
  | Throw _ => False
  end.
Proof.
  assert (snd (start None sample_environment
                 {| this := sample_server; owner := 0%nat; globalState := None |})
          = Normal 3001) as Hstart by reflexivity.
  assert (0 < 3001) as Hpos by lia.
  split; [exact Hstart|]. split; [exact Hpos|].
  exact (port_test_survives_stop None sample_environment _ 3001 [] Hstart Hpos).
Defined.

(** ** The relay over whole runs *)

Section Relay.
Context {Owner : Type}.
Implicit Types (b : RemoteUiServer Owner) (w : World Owner) (i : Input Owner).

Lemma run_cons_fst i (rest : list (Input Owner)) w :
  fst (run (i :: rest) w) = fst (run rest (fst (step i w))).
Proof.
  cbn. destruct (step i w) as [w1 e1]. cbn.
  destruct (run rest w1) as [w2 e2]. reflexivity.
Qed.

Lemma forwarded_app (l1 l2 : list Effect) :
  forwarded (l1 ++ l2) = (forwarded l1 ++ forwarded l2)%list.
Proof. unfold forwarded. apply flat_map_app. Qed.

Lemma forwarded_call (m : RemoteMessage) (l : list Effect) :
  forwarded (CallOnMessage m :: l) = m :: forwarded l.
Proof. reflexivity. Qed.

Lemma forwarded_broadcast b (m : RemoteMessage) : forwarded (broadcast b m) = [].
Proof.
  unfold broadcast. destruct (_io b) as [io|]; [|reflexivity].
  induction (_authenticatedSockets b) as [|s l IH]; [reflexivity|].
  cbn [flat_map]. rewrite forwarded_app, IH. unfold io_to_emit.
  case_bool_decide; reflexivity.
Qed.

Lemma forwarded_perform b (sid : SocketId) (actions : list CallbackAction) :
  forwarded (flat_map (perform b sid) actions) = [].
Proof.
  induction actions as [|a l IH]; [reflexivity|].
  cbn [flat_map]. rewrite forwarded_app, IH.
  destruct a; cbn [perform]; [reflexivity|]. rewrite forwarded_broadcast. reflexivity.
Qed.

Lemma run_messages_forwarded w (sid : SocketId)
  (callback : RemoteMessage -> Owner -> Owner * list CallbackAction)
  (ms : list RemoteMessage) :
  sid ∈ _authenticatedSockets (this w) ->
  _onMessageCallback (this w) = Some callback ->
  let result := run ((fun m => socket_on sid (on_message_event m)) <$> ms) w in
  forwarded (snd result) = ms /\
  owner (fst result) = fold_left (fun o m => fst (callback m o)) ms (owner w) /\
  this (fst result) = this w.
Proof.
  intros Hsid Hcb. cbn zeta. revert w Hsid Hcb.
  induction ms as [|m ms IH]; intros w Hsid Hcb; [cbn; auto|].
  cbn [fmap list_fmap]. rewrite run_cons, run_cons_fst. cbn [step].
  assert (on_message sid m w
          = ({| this := this w; owner := fst (callback m (owner w));
                globalState := globalState w |},
             CallOnMessage m
               :: flat_map (perform (this w) sid) (snd (callback m (owner w))))) as ->.
  { unfold on_message. apply Set_has_true in Hsid. rewrite Hsid, Hcb. cbn.
    destruct (callback m (owner w)). reflexivity. }
  cbn [fst snd].
  destruct (IH {| this := this w; owner := fst (callback m (owner w));
                  globalState := globalState w |} Hsid Hcb) as (Hfw & Hown & Hthis).
  rewrite Hown, Hthis. split; [|auto].
  rewrite <- app_comm_cons, forwarded_call, forwarded_app, forwarded_perform, Hfw.
  reflexivity.
Qed.

(** X12. The messages of an authenticated socket reach the message
    callback one by one, unchanged and in the order in which they arrived,
    and the state owner goes through the states the callback returns. *)
Theorem messages_are_forwarded_in_order w (sid : SocketId)
  (callback : RemoteMessage -> Owner -> Owner * list CallbackAction)
  (ms : list RemoteMessage) :
  sid ∈ _authenticatedSockets (this w) ->
  _onMessageCallback (this w) = Some callback ->
  let result := run ((fun m => socket_on sid (on_message_event m)) <$> ms) w in
  forwarded (snd result) = ms /\
  owner (fst result) = fold_left (fun o m => fst (callback m o)) ms (owner w) /\
  this (fst result) = this w.
Proof. apply run_messages_forwarded. Qed.

(** X13. Authentication lasts: a socket in the authenticated set stays in
    it through everything except its own ['disconnect'] and a [stop] of the
    server.  A later ['authenticate'] with a wrong PIN does not take it
    out, and neither does another [start]. *)
Theorem authenticated_until_disconnect_or_stop (inputs : list (Input Owner)) w
  (sid : SocketId) :
  sid ∈ _authenticatedSockets (this w) ->
  forallb (fun i => negb (ends_session sid i)) inputs = true ->
  sid ∈ _authenticatedSockets (this (fst (run inputs w))).
Proof.
  revert w. induction inputs as [|i rest IH]; intros w Hsid Hin; cbn; [exact Hsid|].
  cbn in Hin. apply andb_prop in Hin as [Hi Hrest]. apply negb_true_iff in Hi.
  assert (sid ∈ _authenticatedSockets (this (fst (step i w)))) as Hstep.
  { destruct i as [s|s [data_pin|m|]|m|cb|cb|p env| |f|n s']; cbn in *.
    - unfold on_connection. destruct (_io (this w)); exact Hsid.
    - unfold on_authenticate. destruct (String.eqb data_pin _); [|exact Hsid].
      cbn. destruct (_getStateCallback (this w)); cbn;
        apply elem_of_Set_add; right; exact Hsid.
    - unfold on_message. destruct (negb _); [exact Hsid|].
      destruct (_onMessageCallback (this w)) as [cb|]; [|exact Hsid].
      destruct (cb m (owner w)). exact Hsid.
    - apply elem_of_Set_delete. split; [|exact Hsid].
      intros ->. rewrite String.eqb_refl in Hi. discriminate Hi.
    - exact Hsid.
    - exact Hsid.
    - exact Hsid.
    - destruct (start_keeps p env w) as (_ & _ & -> & _). exact Hsid.
    - discriminate Hi.
    - exact Hsid.
    - exact Hsid. }
  destruct (step i w) as [w1 e1]. cbn in Hstep. specialize (IH w1 Hstep Hrest).
  destruct (run rest w1) as [w2 e2]. exact IH.
Qed.

Lemma step_refusals i w (sid : SocketId) (ev : ServerEvent) :
  sid ∉ _authenticatedSockets (this w) ->
  authenticates (_pin (this w)) sid i = false ->
  Emit sid ev ∈ snd (step i w) ->
  ev = authenticated false (Some "Invalid PIN") \/ ev = error "Not authenticated".
Proof.
  intros Hsid Hi.
  destruct i as [s|s [data_pin|m|]|m|cb|cb|p env| |f|n s']; cbn in *.
  - unfold on_connection. destruct (_io (this w)); cbn; intros H; inversion H.
  - unfold on_authenticate.
    destruct (String.eqb_spec data_pin (_pin (this w))) as [->|Hpin].
    + rewrite andb_true_r in Hi. apply String.eqb_neq in Hi. cbn.
      destruct (_getStateCallback (this w)); cbn; intros H;
        repeat (apply elem_of_cons in H as [H|H]; [inversion H; congruence|]);
        inversion H.
    + cbn. intros H. apply elem_of_cons in H as [H|H]; [|inversion H].
      inversion H. auto.
  - unfold on_message.
    destruct (Set_has s (_authenticatedSockets (this w))) eqn:Hs; cbn.
    + apply Set_has_true in Hs.
      destruct (_onMessageCallback (this w)) as [cb|]; cbn; [|intros H; inversion H].
      destruct (cb m (owner w)) as [o' actions]. cbn. intros H.
      apply elem_of_cons in H as [H|H]; [discriminate H|].
      rewrite list_elem_of_In, in_flat_map in H. destruct H as (a & _ & H).
      rewrite <- list_elem_of_In in H. destruct a as [r|r]; cbn in H.
      * apply list_elem_of_singleton in H. inversion H; subst. contradiction.
      * exfalso. revert H. apply broadcast_not_to_unauthenticated, Hsid.
    + intros H. apply elem_of_cons in H as [H|H]; [|inversion H].
      inversion H. auto.
  - intros H. inversion H.
  - intros H. exfalso. revert H. apply broadcast_not_to_unauthenticated, Hsid.
  - intros H. inversion H.
  - intros H. inversion H.
  - intros H. inversion H.
  - rewrite stop_returns. intros H. inversion H.
  - intros H. inversion H.
  - intros H. inversion H.
Qed.

(** X14. Until it presents the PIN, a socket hears nothing from the server
    but refusals: every event it receives is the failure acknowledgment
    ['Invalid PIN'] or the error ['Not authenticated'], so no state snapshot
    and no relayed or broadcast message reaches it. *)
Theorem unauthenticated_socket_hears_only_refusals (inputs : list (Input Owner)) w
  (sid : SocketId) :
  sid ∉ _authenticatedSockets (this w) ->
  forallb (fun i => negb (authenticates (_pin (this w)) sid i)) inputs = true ->
  forall ev, ev ∈ received sid (snd (run inputs w)) ->
    ev = authenticated false (Some "Invalid PIN") \/ ev = error "Not authenticated".
Proof.
  intros Hsid Hin ev. rewrite elem_of_received.
  revert w Hsid Hin. induction inputs as [|i rest IH]; intros w Hsid Hin; cbn.
  - intros H. inversion H.
  - cbn in Hin. apply andb_prop in Hin as [Hi Hrest]. apply negb_true_iff in Hi.
    destruct (step_unauthenticated i w sid Hsid Hi) as [Hsid' _].
    pose proof (step_refusals i w sid ev Hsid Hi) as Hstep.
    pose proof (step_pin i w) as Hpin.
    destruct (step i w) as [w1 e1]. cbn in *.
    specialize (IH w1 Hsid'). rewrite Hpin in IH. specialize (IH Hrest).
    destruct (run rest w1) as [w2 e2]. cbn in *.
    rewrite elem_of_app. intros [H|H]; [exact (Hstep H)|exact (IH H)].
Qed.

End Relay.

Lemma messages_are_forwarded_in_order_witness :
  "socket-1" ∈ _authenticatedSockets (this wired_world) /\
  _onMessageCallback (this wired_world) = Some sample_onMessage /\
  forwarded (snd (run [ socket_on "socket-1" (on_message_event sample_message);
                        socket_on "socket-1" (on_message_event sample_message) ]
                      wired_world))
  = [sample_message; sample_message].
Proof.
  assert ("socket-1" ∈ _authenticatedSockets (this wired_world)) as Hsid.
  { apply list_elem_of_In. vm_compute. auto. }
  assert (_onMessageCallback (this wired_world) = Some sample_onMessage) as Hcb
    by reflexivity.
  split; [exact Hsid|]. split; [exact Hcb|].
  apply (messages_are_forwarded_in_order wired_world "socket-1" sample_onMessage
           [sample_message; sample_message] Hsid Hcb).
Defined.

Lemma authenticated_until_disconnect_or_stop_witness :
  "socket-1" ∈ _authenticatedSockets (this wired_world) /\
  "socket-1" ∈ _authenticatedSockets
     (this (fst (run [ socket_on "socket-1" (on_authenticate_event "0000");
                       socket_on "socket-2" on_disconnect_event;
                       call_start None sample_environment ] wired_world))).
Proof.
  assert ("socket-1" ∈ _authenticatedSockets (this wired_world)) as Hsid.
  { apply list_elem_of_In. vm_compute. auto. }
  split; [exact Hsid|].
  apply (authenticated_until_disconnect_or_stop _ wired_world "socket-1" Hsid).
  reflexivity.
Defined.

Lemma unauthenticated_socket_hears_only_refusals_witness :
  ("socket-2" ∉ _authenticatedSockets (this wired_world)) /\
  forall ev,
    ev ∈ received "socket-2"
           (snd (run [ socket_on "socket-2" (on_authenticate_event "0000");
                       socket_on "socket-2" (on_message_event sample_message);
                       socket_on "socket-1" (on_message_event sample_message);
                       call_broadcast sample_message ] wired_world)) ->
    ev = authenticated false (Some "Invalid PIN") \/ ev = error "Not authenticated".
Proof.
  assert ("socket-2" ∉ _authenticatedSockets (this wired_world)) as Hsid.
  { intros H. apply list_elem_of_In in H. vm_compute in H. intuition discriminate. }
  split; [exact Hsid|].
  apply (unauthenticated_socket_hears_only_refusals _ wired_world "socket-2" Hsid).
  reflexivity.
Defined.

(** ** Connection info and the pages *)

Lemma push_addresses_acc (l : list NetworkInterfaceInfo) (ips : list string) :
  push_addresses l ips = (ips ++ push_addresses l [])%list.
Proof.
  revert ips. induction l as [|iface l IH]; intros ips; cbn.
  - symmetry. apply app_nil_r.
  - destruct (internal iface || negb (String.eqb (family iface) "IPv4"))%bool.
    + apply IH.
    + rewrite IH, (IH [address iface]). symmetry. apply List.app_assoc.
Qed.

Lemma getLocalIPs_loop_acc (interfaces : NetworkInterfaces) (ips : list string) :
  getLocalIPs_loop interfaces ips = (ips ++ getLocalIPs_loop interfaces [])%list.
Proof.
  revert ips. induction interfaces as [|[name [l|]] rest IH]; intros ips; cbn.
  - symmetry. apply app_nil_r.
  - rewrite (IH (push_addresses l ips)), (IH (push_addresses l [])),
      (push_addresses_acc l ips).
    symmetry. apply List.app_assoc.
  - apply IH.
Qed.

Lemma elem_of_push_addresses (l : list NetworkInterfaceInfo) (ip : string) :
  ip ∈ push_addresses l [] <->
  exists iface, iface ∈ l /\ internal iface = false /\ family iface = "IPv4"
                /\ address iface = ip.
Proof.
  induction l as [|iface l IH]; cbn.
  - split; [intros H; inversion H|intros (i & H & _); inversion H].
  - destruct (internal iface) eqn:Hint; cbn.
    + rewrite IH. split.
      * intros (i & Hi & Hrest). exists i. split; [right; exact Hi|exact Hrest].
      * intros (i & Hi & Hrest). apply elem_of_cons in Hi as [->|Hi].
        -- destruct Hrest as [Hrest _]. congruence.
        -- exists i. auto.
    + destruct (String.eqb_spec (family iface) "IPv4") as [Hfam|Hfam]; cbn.
      * rewrite push_addresses_acc, elem_of_app, list_elem_of_singleton, IH. split.
        -- intros [->|(i & Hi & Hrest)].
           ++ exists iface. split; [left|auto].
           ++ exists i. split; [right; exact Hi|exact Hrest].
        -- intros (i & Hi & Hrest). apply elem_of_cons in Hi as [->|Hi].
           ++ left. symmetry. apply Hrest.
           ++ right. exists i. auto.
      * rewrite IH. split.
        -- intros (i & Hi & Hrest). exists i. split; [right; exact Hi|exact Hrest].
        -- intros (i & Hi & Hrest). apply elem_of_cons in Hi as [->|Hi].
           ++ destruct Hrest as (_ & Hrest & _). contradiction.
           ++ exists i. auto.
Qed.

(** X15. [_getLocalIPs] lists exactly the addresses of the entries of
    [os.networkInterfaces()] that are IPv4 and not internal: it returns no
    loopback and no IPv6 address, and misses no external IPv4 one. *)
Theorem getLocalIPs_lists_external_IPv4 (interfaces : NetworkInterfaces) (ip : string) :
  ip ∈ _getLocalIPs interfaces <->
  exists name l iface,
    (name, Some l) ∈ interfaces /\ iface ∈ l /\
    internal iface = false /\ family iface = "IPv4" /\ address iface = ip.
Proof.
  unfold _getLocalIPs. induction interfaces as [|[name [l|]] rest IH]; cbn.
  - split; [intros H; inversion H|intros (n & l & i & H & _); inversion H].
  - rewrite getLocalIPs_loop_acc, elem_of_app, IH, elem_of_push_addresses. split.
    + intros [(i & Hi & Hrest)|(n & l' & i & Hn & Hrest)].
      * exists name, l, i. split; [left|auto].
      * exists n, l', i. split; [right; exact Hn|exact Hrest].
    + intros (n & l' & i & Hn & Hi & Hrest). apply elem_of_cons in Hn as [Hn|Hn].
      * inversion Hn; subst. left. exists i. auto.
      * right. exists n, l', i. auto.
  - rewrite IH. split.
    + intros (n & l' & i & Hn & Hrest). exists n, l', i. split; [right; exact Hn|exact Hrest].
    + intros (n & l' & i & Hn & Hrest). apply elem_of_cons in Hn as [Hn|Hn].
      * inversion Hn.
      * exists n, l', i. auto.
Qed.

Section Pages.
Context {Owner : Type}.
Implicit Types (b : RemoteUiServer Owner) (w : World Owner).

(** X16. What [getConnectionInfo] shows works: it gives the URL
    [http://localhost:<port>] first and then, for each address of
    [_getLocalIPs] in order, the URL [http://<address>:<port>], and nothing
    else; and the PIN it shows is accepted by the ['authenticate'] handler
    and by the application page. *)
Theorem connection_info_is_usable w (interfaces : NetworkInterfaces) (sid : SocketId) :
  let info := getConnectionInfo (this w) interfaces in
  length (Info.urls info) = S (length (_getLocalIPs interfaces)) /\
  head (Info.urls info) = Some ("http://localhost:" ++ toString (_port (this w))) /\
  (forall n ip, _getLocalIPs interfaces !! n = Some ip ->
     Info.urls info !! S n
     = Some ("http://" ++ ip ++ ":" ++ toString (_port (this w)))) /\
  Emit sid (authenticated true None) ∈ snd (on_authenticate sid (Info.pin info) w) /\
  sid ∈ _authenticatedSockets (this (fst (on_authenticate sid (Info.pin info) w))) /\
  get_app (str (Info.pin info)) (this w) = send AppHtml.
Proof.
  cbn zeta. unfold getConnectionInfo. cbn [Info.urls Info.pin].
  rewrite on_authenticate_match. cbn [fst snd].
  split; [cbn; rewrite length_fmap; reflexivity|]. split; [reflexivity|].
  split; [|split; [|split]].
  - intros n ip Hn.
    pose proof (list_lookup_fmap
                  (fun ip => "http://" ++ ip ++ ":" ++ toString (_port (this w)))
                  (_getLocalIPs interfaces) n) as Hurl.
    rewrite Hn in Hurl. exact Hurl.
  - destruct (_getStateCallback (this w)); left.
  - cbn. apply elem_of_Set_add. left. reflexivity.
  - unfold get_app. rewrite String.eqb_refl. reflexivity.
Qed.

Lemma generatePin_nonempty (k : Z) : is_random_draw k -> _generatePin k <> "".
Proof.
  intros Hk Heq. destruct (generatePin_shape k Hk) as (_ & Hlen & _).
  rewrite Heq in Hlen. discriminate Hlen.
Qed.

Lemma constructed_pin (k now : Z) (suffix : string) (inputs : list (Input Owner))
  (o : Owner) (gs : GlobalState) :
  _pin (this (fst (run inputs {| this := new_RemoteUiServer k now suffix;
                                 owner := o; globalState := gs |})))
  = _generatePin k.
Proof. destruct (run_identity inputs {| this := new_RemoteUiServer k now suffix;
                                        owner := o; globalState := gs |}) as [-> _].
       reflexivity. Qed.

(** X17. The application page is behind the PIN: at any point in the life
    of a server constructed from a draw of [Math.random], [GET /app] sends
    the page exactly when the query carries the PIN as a string; with no
    pin, an empty, a wrong or a non-string one it redirects to
    [/?error=invalid_pin]. *)
Theorem app_page_needs_the_pin (k now : Z) (suffix : string)
  (inputs : list (Input Owner)) (o : Owner) (gs : GlobalState) (q : QueryValue) :
  is_random_draw k ->
  let b := this (fst (run inputs {| this := new_RemoteUiServer k now suffix;
                                    owner := o; globalState := gs |})) in
  (get_app q b = send AppHtml <-> q = str (_generatePin k)) /\
  (q <> str (_generatePin k) -> get_app q b = redirect "/?error=invalid_pin").
Proof.
  intros Hk. cbn zeta. unfold get_app. rewrite constructed_pin.
  pose proof (generatePin_nonempty k Hk) as Hne.
  destruct q as [|s|]; cbv beta iota zeta.
  - destruct (String.eqb_spec "" (_generatePin k)) as [He|_]; [congruence|].
    cbn [negb]. split; [split; discriminate|reflexivity].
  - destruct (String.eqb_spec s (_generatePin k)) as [->|Hs]; cbn [negb].
    + split; [tauto|congruence].
    + split; [split; [discriminate|congruence]|reflexivity].
  - split; [split; discriminate|reflexivity].
Qed.

(** X18. The landing page redirects into the application only with the
    PIN: at any point in the life of a server constructed from a draw of
    [Math.random], [GET /] answers a query that carries the PIN with a
    redirect to [/app?pin=] followed by the PIN, which [GET /app] then
    serves, and answers every other query with the landing page.  The
    target of the redirect of [GET /app] carries no pin, so it ends on the
    landing page: no chain of redirects is longer than one. *)
Theorem landing_page_redirects_only_with_the_pin (k now : Z) (suffix : string)
  (inputs : list (Input Owner)) (o : Owner) (gs : GlobalState) (q : QueryValue) :
  is_random_draw k ->
  let b := this (fst (run inputs {| this := new_RemoteUiServer k now suffix;
                                    owner := o; globalState := gs |})) in
  (q = str (_generatePin k) ->
   get_root q b = redirect ("/app?pin=" ++ _generatePin k) /\
   get_app (str (_generatePin k)) b = send AppHtml) /\
  (q <> str (_generatePin k) -> get_root q b = send LandingHtml) /\
  get_root undefined b = send LandingHtml.
Proof.
  intros Hk. cbn zeta. unfold get_root, get_app. rewrite constructed_pin.
  pose proof (generatePin_nonempty k Hk) as Hne.
  split; [|split; [|reflexivity]].
  - intros ->. rewrite String.eqb_refl.
    destruct (String.eqb_spec (_generatePin k) "") as [He|_]; [congruence|].
    cbn [negb andb]. auto.
  - intros Hq. destruct q as [|s|]; [reflexivity| |reflexivity].
    destruct (String.eqb_spec s (_generatePin k)) as [->|_]; [congruence|].
    rewrite andb_false_r. reflexivity.
Qed.

End Pages.

Lemma app_page_needs_the_pin_witness :
  is_random_draw (2 ^ 52) /\
  get_app (str "5500") (this wired_world) = send AppHtml /\
  (get_app undefined
     (this (fst (run [call_start None sample_environment]
                     {| this := new_RemoteUiServer (2 ^ 52) 1700000000000 "k3x9q2a";
                        owner := 0%nat; globalState := None |})))
   = send AppHtml <-> undefined = str (_generatePin (2 ^ 52))).
Proof.
  assert (is_random_draw (2 ^ 52)) as Hk by (vm_compute; split; congruence).
  split; [exact Hk|]. split; [reflexivity|].
  apply (app_page_needs_the_pin (2 ^ 52) 1700000000000 "k3x9q2a"
           [call_start None sample_environment] 0%nat None undefined Hk).
Defined.

Lemma landing_page_redirects_only_with_the_pin_witness :
  is_random_draw (2 ^ 52) /\
  get_root undefined
    (this (fst (run [call_start None sample_environment]
                    {| this := new_RemoteUiServer (2 ^ 52) 1700000000000 "k3x9q2a";
                       owner := 0%nat; globalState := None |})))
  = send LandingHtml.
Proof.
  assert (is_random_draw (2 ^ 52)) as Hk by (vm_compute; split; congruence).
  split; [exact Hk|].
  apply (landing_page_redirects_only_with_the_pin (2 ^ 52) 1700000000000 "k3x9q2a"
           [call_start None sample_environment] 0%nat None undefined Hk).
Defined.

(** ** The shim of the application page *)

Lemma sent_messages_app (l1 l2 : list ClientEvent) :
  sent_messages (l1 ++ l2) = (sent_messages l1 ++ sent_messages l2)%list.
Proof. unfold sent_messages. apply flat_map_app. Qed.

Lemma sent_messages_flush (ms : list RemoteMessage) :
  sent_messages (on_message_event <$> ms) = ms.
Proof. induction ms as [|m ms IH]; cbn; [reflexivity|]. f_equal. exact IH. Qed.

Lemma shim_step_keeps_ok (i : ShimInput) (c : Shim) :
  shim_ok c -> shim_event_possible c i = true -> shim_ok (fst (shim_step i c)).
Proof.
  unfold shim_ok. intros Hok Hposs.
  destruct i as [m| | |[|]| |]; cbn in *; try exact Hok.
  - destruct (isConnected c) eqn:Hc, (socket c) eqn:Hs; cbn;
      rewrite ?Hc, ?Hs; try discriminate; try exact Hok.
    destruct (Hok eq_refl) as [H _]. discriminate H.
  - intros Hc. destruct (Hok Hc) as [_ Hq]. auto.
  - auto.
  - discriminate.
Qed.

Lemma shim_step_PIN (i : ShimInput) (c : Shim) : PIN (fst (shim_step i c)) = PIN c.
Proof.
  destruct i as [m| | |[|]| |]; cbn; try reflexivity.
  destruct (isConnected c && socket c)%bool; reflexivity.
Qed.

Lemma shim_step_fifo (i : ShimInput) (c : Shim) :
  shim_ok c ->
  (sent_messages (snd (shim_step i c)) ++ messageQueue (fst (shim_step i c)))%list
  = (messageQueue c ++ posted [i])%list.
Proof.
  unfold shim_ok. intros Hok.
  destruct i as [m| | |[|]| |]; cbn; rewrite ?app_nil_r; try reflexivity.
  - destruct (isConnected c) eqn:Hc; cbn; [|reflexivity].
    destruct (Hok eq_refl) as [Hs Hq]. rewrite Hs. cbn. rewrite Hq. reflexivity.
  - apply sent_messages_flush.
Qed.

Lemma shim_step_authenticates_with_PIN (i : ShimInput) (c : Shim) (p : string) :
  on_authenticate_event p ∈ snd (shim_step i c) -> p = PIN c.
Proof.
  destruct i as [m| | |[|]| |]; cbn; try (intros H; inversion H; fail).
  - destruct (isConnected c && socket c)%bool; cbn; intros H; [|inversion H].
    apply elem_of_cons in H as [H|H]; [discriminate H|inversion H].
  - intros H. apply elem_of_cons in H as [H|H]; [congruence|inversion H].
  - intros H. apply list_elem_of_fmap in H as (m & H & _). discriminate H.
Qed.

Lemma shim_step_quiet (i : ShimInput) (c : Shim) :
  i <> socket_authenticated true -> isConnected c = false ->
  sent_messages (snd (shim_step i c)) = [] /\ isConnected (fst (shim_step i c)) = false.
Proof.
  intros Hi Hc.
  destruct i as [m| | |[|]| |]; cbn; rewrite ?Hc; cbn; auto.
  congruence.
Qed.

Lemma shim_run_facts (inputs : list ShimInput) (c : Shim) :
  shim_ok c -> shim_run_possible inputs c = true ->
  shim_ok (fst (shim_run inputs c)) /\
  (sent_messages (snd (shim_run inputs c)) ++ messageQueue (fst (shim_run inputs c)))%list
  = (messageQueue c ++ posted inputs)%list /\
  (forall p, on_authenticate_event p ∈ snd (shim_run inputs c) -> p = PIN c).
Proof.
  revert c. induction inputs as [|i rest IH]; intros c Hok Hposs.
  - cbn. rewrite app_nil_r. split; [exact Hok|]. split; [reflexivity|].
    intros p Hp. inversion Hp.
  - cbn in Hposs. apply andb_prop in Hposs as [Hi Hrest].
    pose proof (shim_step_keeps_ok i c Hok Hi) as Hok1.
    pose proof (shim_step_PIN i c) as Hpin1.
    pose proof (shim_step_fifo i c Hok) as Hfifo1.
    pose proof (shim_step_authenticates_with_PIN i c) as Hauth1.
    destruct (IH (fst (shim_step i c)) Hok1 Hrest) as (Hok2 & Hfifo2 & Hauth2).
    cbn [shim_run]. destruct (shim_step i c) as [c1 s1]. cbn [fst snd] in *.
    destruct (shim_run rest c1) as [c2 s2]. cbn [fst snd] in *.
    split; [exact Hok2|]. split.
    + rewrite sent_messages_app, <- List.app_assoc, Hfifo2, List.app_assoc, Hfifo1.
      unfold posted. cbn [flat_map]. rewrite app_nil_r, <- List.app_assoc. reflexivity.
    + intros p H. apply elem_of_app in H as [H|H]; [auto|].
      rewrite <- Hpin1. auto.
Qed.

Lemma shim_run_quiet (inputs : list ShimInput) (c : Shim) :
  forallb (fun i => match i with socket_authenticated true => false | _ => true end)
          inputs = true ->
  isConnected c = false ->
  sent_messages (snd (shim_run inputs c)) = [].
Proof.
  revert c. induction inputs as [|i rest IH]; intros c Hno Hc; [reflexivity|].
  cbn in Hno. apply andb_prop in Hno as [Hno1 Hno2].
  assert (i <> socket_authenticated true) as Hi by (intros ->; discriminate Hno1).
  destruct (shim_step_quiet i c Hi Hc) as [Hs1 Hc1].
  specialize (IH (fst (shim_step i c)) Hno2 Hc1).
  cbn [shim_run]. destruct (shim_step i c) as [c1 s1]. cbn [fst snd] in *.
  destruct (shim_run rest c1) as [c2 s2]. cbn [fst snd] in *.
  rewrite sent_messages_app, Hs1, IH. reflexivity.
Qed.

(** X19. The page loses no message and sends none twice or out of order:
    over any sequence of page events in which socket events come after
    [initSocket], the messages sent so far followed by the messages still
    queued are the messages handed to [postMessage], in order; nothing
    waits in the queue while the page is connected; every ['authenticate']
    carries the pin of the page's URL; and until the first successful
    ['authenticated'] no message is sent at all. *)
Theorem shim_sends_every_message_once_in_order (inputs : list ShimInput)
  (query_pin : option string) :
  shim_run_possible inputs (shim_loaded query_pin) = true ->
  let c := fst (shim_run inputs (shim_loaded query_pin)) in
  let sent := snd (shim_run inputs (shim_loaded query_pin)) in
  (sent_messages sent ++ messageQueue c)%list = posted inputs /\
  (isConnected c = true -> messageQueue c = []) /\
  (forall p, on_authenticate_event p ∈ sent -> p = PIN (shim_loaded query_pin)) /\
  (forallb (fun i => match i with socket_authenticated true => false | _ => true end)
           inputs = true -> sent_messages sent = []).
Proof.
  intros Hposs. cbn zeta.
  assert (shim_ok (shim_loaded query_pin)) as Hok by (intros H; discriminate H).
  destruct (shim_run_facts inputs _ Hok Hposs) as (Hok' & Hfifo & Hauth).
  split; [exact Hfifo|]. split; [intros Hc; apply Hok', Hc|]. split; [exact Hauth|].
  intros Hno. apply shim_run_quiet; [exact Hno|reflexivity].
Qed.

Lemma shim_sends_every_message_once_in_order_witness :
  let inputs := [ postMessage sample_message; initSocket; socket_connect;
                  socket_authenticated true; postMessage sample_message;
                  socket_disconnect; postMessage sample_message ] in
  shim_run_possible inputs (shim_loaded (Some "5500")) = true /\
  snd (shim_run inputs (shim_loaded (Some "5500")))
  = [ on_authenticate_event "5500"; on_message_event sample_message;
      on_message_event sample_message ] /\
  (sent_messages (snd (shim_run inputs (shim_loaded (Some "5500"))))
   ++ messageQueue (fst (shim_run inputs (shim_loaded (Some "5500")))))%list
  = posted inputs.
Proof.
  cbn zeta.
  assert (shim_run_possible
            [ postMessage sample_message; initSocket; socket_connect;
              socket_authenticated true; postMessage sample_message;
              socket_disconnect; postMessage sample_message ]
            (shim_loaded (Some "5500")) = true) as Hposs by reflexivity.
  split; [exact Hposs|]. split; [reflexivity|].
  apply (shim_sends_every_message_once_in_order _ (Some "5500") Hposs).
Defined.

(** ** Page and server together *)

Lemma shim_run_app (inputs1 inputs2 : list ShimInput) (c : Shim) :
  shim_run (inputs1 ++ inputs2) c
  = (fst (shim_run inputs2 (fst (shim_run inputs1 c))),
     (snd (shim_run inputs1 c) ++ snd (shim_run inputs2 (fst (shim_run inputs1 c))))%list).
Proof.
  revert c. induction inputs1 as [|i rest IH]; intros c; cbn.
  - destruct (shim_run inputs2 c). reflexivity.
  - destruct (shim_step i c) as [c1 s1]. rewrite IH.
    destruct (shim_run rest c1) as [c2 s2]. cbn. rewrite List.app_assoc. reflexivity.
Qed.

Lemma shim_run_posts (ms : list RemoteMessage) (c : Shim) :
  isConnected c = false ->
  shim_run (postMessage <$> ms) c
  = ({| PIN := PIN c; socket := socket c; isConnected := false;
        reconnectAttempts := reconnectAttempts c;
        messageQueue := messageQueue c ++ ms |}, []).
Proof.
  revert c. induction ms as [|m ms IH]; intros c Hc.
  - cbn. rewrite app_nil_r. destruct c; cbn in *; subst; reflexivity.
  - cbn [fmap list_fmap shim_run shim_step]. rewrite Hc. cbn [andb].
    rewrite IH by reflexivity. cbn. rewrite <- List.app_assoc. reflexivity.
Qed.

Lemma shim_loaded_with (p : string) :
  shim_loaded (Some p)
  = {| PIN := p; socket := false; isConnected := false; reconnectAttempts := 0;
       messageQueue := [] |}.
Proof.
  unfold shim_loaded. destruct (String.eqb_spec p "") as [->|_]; reflexivity.
Qed.

Section Handshake.
Context {Owner : Type}.

(** X20. Messages the page was handed before it was connected reach the
    state owner once the handshake is done.  The page, loaded from a URL
    that carries the server's PIN, queues them and on ['connect'] sends only
    its ['authenticate']; the server answers first with the success
    acknowledgment and has forwarded nothing yet; on that acknowledgment
    the page sends the queued messages, and the server hands them to the
    message callback unchanged and in their order. *)
Theorem queued_messages_arrive_after_the_handshake (w : World Owner) (sid : SocketId)
  (callback : RemoteMessage -> Owner -> Owner * list CallbackAction)
  (ms : list RemoteMessage) :
  _onMessageCallback (this w) = Some callback ->
  let page := shim_loaded (Some (_pin (this w))) in
  let before := shim_run (initSocket :: (postMessage <$> ms) ++ [socket_connect]) page in
  let server1 := run (socket_on sid <$> snd before) w in
  let after := shim_step (socket_authenticated true) (fst before) in
  let server2 := run (socket_on sid <$> snd after) (fst server1) in
  snd before = [on_authenticate_event (_pin (this w))] /\
  head (received sid (snd server1)) = Some (authenticated true None) /\
  forwarded (snd server1) = [] /\
  messageQueue (fst after) = [] /\
  forwarded (snd server2) = ms /\
  owner (fst server2) = fold_left (fun o m => fst (callback m o)) ms (owner w).
Proof.
  intros Hcb. cbn zeta.
  assert (shim_run (initSocket :: (postMessage <$> ms) ++ [socket_connect])
            (shim_loaded (Some (_pin (this w))))
          = ({| PIN := _pin (this w); socket := true; isConnected := false;
                reconnectAttempts := 0; messageQueue := ms |},
             [on_authenticate_event (_pin (this w))])) as Hbefore.
  { rewrite shim_loaded_with. cbn [shim_run shim_step].
    rewrite shim_run_app, shim_run_posts by reflexivity. reflexivity. }
  rewrite Hbefore. cbn [fst snd fmap list_fmap shim_step messageQueue].
  assert (run [socket_on sid (on_authenticate_event (_pin (this w)))] w
          = on_authenticate sid (_pin (this w)) w) as Hrun1.
  { cbn [run step]. destruct (on_authenticate sid (_pin (this w)) w).
    rewrite app_nil_r. reflexivity. }
  rewrite Hrun1, on_authenticate_match. cbn [fst snd].
  split; [reflexivity|]. split; [|split; [|split; [reflexivity|]]].
  - destruct (_getStateCallback (this w)); cbn; rewrite String.eqb_refl; reflexivity.
  - destruct (_getStateCallback (this w)); reflexivity.
  - rewrite <- list_fmap_compose.
    assert (sid ∈ Set_add sid (_authenticatedSockets (this w))) as Hsid
      by (apply elem_of_Set_add; left; reflexivity).
    destruct (run_messages_forwarded
                (set_this (set_authenticatedSockets
                             (Set_add sid (_authenticatedSockets (this w))) (this w)) w)
                sid callback ms Hsid Hcb) as (Hfw & Hown & _).
    split; [exact Hfw|exact Hown].
Qed.

End Handshake.

Lemma queued_messages_arrive_after_the_handshake_witness :
  _onMessageCallback (this wired_world) = Some sample_onMessage /\
  forwarded
    (snd (run (socket_on "socket-2" <$>
                 snd (shim_step (socket_authenticated true)
                        (fst (shim_run
                                (initSocket
                                   :: (postMessage <$> [sample_message; sample_message])
                                   ++ [socket_connect])
                                (shim_loaded (Some (_pin (this wired_world))))))))
              (fst (run (socket_on "socket-2" <$>
                           snd (shim_run
                                  (initSocket
                                     :: (postMessage <$> [sample_message; sample_message])
                                     ++ [socket_connect])
                                  (shim_loaded (Some (_pin (this wired_world))))))
                        wired_world))))
  = [sample_message; sample_message].
Proof.
  assert (_onMessageCallback (this wired_world) = Some sample_onMessage) as Hcb
    by reflexivity.
  split; [exact Hcb|].
  apply (queued_messages_arrive_after_the_handshake wired_world "socket-2"
           sample_onMessage [sample_message; sample_message] Hcb).
Defined.

(** ** The landing page *)

Lemma remove_non_digits_all_digits (paste : string) :
  all_digits (remove_non_digits paste) = true.
Proof.
  induction paste as [|c rest IH]; [reflexivity|]. cbn [remove_non_digits].
  destruct (is_digit c) eqn:Hc; [|exact IH]. cbn [all_digits]. rewrite Hc, IH. reflexivity.
Qed.

Lemma substring_all_digits (n : nat) (s : string) :
  all_digits s = true -> all_digits (substring 0 n s) = true.
Proof.
  revert s. induction n as [|n IH]; intros [|c s] H; cbn; try reflexivity.
  cbn in H. apply andb_prop in H as [Hc Hs]. rewrite Hc, (IH s Hs). reflexivity.
Qed.

Lemma substring_length (n : nat) (s : string) :
  (n <= String.length s)%nat -> String.length (substring 0 n s) = n.
Proof.
  revert s. induction n as [|n IH]; intros [|c s] H; cbn in *; try reflexivity; try lia.
  f_equal. apply IH. lia.
Qed.

Lemma entered_pin_fill (digits : string) (inputs : list string) :
  String.length digits = length inputs ->
  entered_pin (fill_inputs digits inputs) = digits.
Proof.
  revert inputs. induction digits as [|d rest IH]; intros [|v boxes] H;
    cbn in H; try discriminate H; [reflexivity|].
  cbn [fill_inputs entered_pin fold_right]. fold (entered_pin (fill_inputs rest boxes)).
  rewrite IH by congruence. reflexivity.
Qed.

Lemma entered_pin_fill_empty (digits : string) (n : nat) :
  (String.length digits <= n)%nat ->
  entered_pin (fill_inputs digits (repeat "" n)) = digits.
Proof.
  revert n. induction digits as [|d rest IH]; intros n H.
  - cbn [fill_inputs]. destruct n; [reflexivity|]. clear.
    cbn. induction n as [|n IH]; [reflexivity|exact IH].
  - destruct n as [|n]; cbn in H; [lia|]. cbn [repeat fill_inputs entered_pin fold_right].
    fold (entered_pin (fill_inputs rest (repeat "" n))).
    rewrite IH by lia. reflexivity.
Qed.

(** X21. Pasting into the four PIN boxes of the landing page: when the
    pasted text has at least four digits, the boxes hold its first four
    digits, whatever they held before, the Connect button is enabled, and
    submitting goes to [/app?pin=] followed by those four digits.  When the
    boxes were empty and the text has fewer than four digits, the button
    stays disabled. *)
Theorem pasted_digits_are_submitted (paste : string) (inputs : list string) :
  length inputs = 4%nat ->
  let digits := remove_non_digits paste in
  ((4 <= String.length digits)%nat ->
   entered_pin (on_paste paste inputs) = substring 0 4 digits /\
   String.length (entered_pin (on_paste paste inputs)) = 4%nat /\
   all_digits (entered_pin (on_paste paste inputs)) = true /\
   connectBtn_disabled (on_paste paste inputs) = false /\
   submit_location (on_paste paste inputs) = "/app?pin=" ++ substring 0 4 digits) /\
  ((String.length digits < 4)%nat ->
   inputs = [""; ""; ""; ""] ->
   entered_pin (on_paste paste inputs) = digits /\
   connectBtn_disabled (on_paste paste inputs) = true).
Proof.
  intros Hlen. cbn zeta. split.
  - intros Hfour.
    assert (entered_pin (on_paste paste inputs)
            = substring 0 4 (remove_non_digits paste)) as Hpin.
    { unfold on_paste. apply entered_pin_fill.
      rewrite substring_length by exact Hfour. symmetry. exact Hlen. }
    unfold connectBtn_disabled, submit_location. rewrite Hpin.
    rewrite substring_length by exact Hfour.
    split; [reflexivity|]. split; [reflexivity|]. split; [|auto].
    apply substring_all_digits, remove_non_digits_all_digits.
  - intros Hfew ->.
    assert (substring 0 4 (remove_non_digits paste) = remove_non_digits paste) as Hsub.
    { generalize dependent (remove_non_digits paste). clear.
      intros [|a [|b [|c [|d s]]]] H; cbn in *; try reflexivity. lia. }
    assert (entered_pin (on_paste paste [""; ""; ""; ""]) = remove_non_digits paste)
      as Hpin.
    { unfold on_paste. rewrite Hsub.
      apply (entered_pin_fill_empty _ 4). lia. }
    unfold connectBtn_disabled. rewrite Hpin. split; [reflexivity|].
    apply negb_true_iff, Nat.eqb_neq. lia.
Qed.

Lemma pasted_digits_are_submitted_witness :
  length ["9"; ""; ""; "7"] = 4%nat /\
  submit_location (on_paste "PIN: 5500 (port 3001)" ["9"; ""; ""; "7"])
  = "/app?pin=5500" /\
  connectBtn_disabled (on_paste "PIN: 5500 (port 3001)" ["9"; ""; ""; "7"]) = false.
Proof.
  assert (length ["9"; ""; ""; "7"] = 4%nat) as Hlen by reflexivity.
  split; [exact Hlen|].
  destruct (pasted_digits_are_submitted "PIN: 5500 (port 3001)" ["9"; ""; ""; "7"] Hlen)
    as [Hfour _].
  destruct (Hfour ltac:(vm_compute; lia)) as (_ & _ & _ & Hbtn & Hloc).
  split; [exact Hloc|exact Hbtn].
Defined.
